(** * Docker Port Viewer: a shallow embedding of [src/App.tsx]

    The React component [App] keeps its state in [useState] cells and
    changes it from event handlers and effects.  Every handler and effect
    is embedded as a function on the part of the state it reads and
    writes; JavaScript arrays live in an explicit heap so that two state
    cells holding the same array are visibly aliased. *)

From Stdlib Require Import ZArith Ascii String List Bool Lia Permutation Sorted.
From stdpp Require Import base decidable option list gmap strings pretty.

Local Open Scope string_scope.
Local Open Scope Z_scope.

(** ** JavaScript built-ins used by the component

    Strings are sequences of 8-bit code units, read as the Latin-1 range
    of JavaScript's UTF-16 code units. *)

Module JS.

Definition code (c : ascii) : Z := Z.of_N (N_of_ascii c).

(** [WhiteSpace] and [LineTerminator] code units below 256: TAB, LF, VT,
    FF, CR, SP and NBSP. *)
Definition isWhiteSpace (c : ascii) : bool :=
  ((9 <=? code c) && (code c <=? 13)) || (code c =? 32) || (code c =? 160).

Fixpoint trimStart (s : string) : string :=
  match s with
  | EmptyString => EmptyString
  | String c s' => if isWhiteSpace c then trimStart s' else s
  end.

Definition trimEnd (s : string) : string :=
  String.rev (trimStart (String.rev s)).

(** [String.prototype.trim] *)
Definition trim (s : string) : string := trimEnd (trimStart s).

(** Lower-case mapping of one code unit: A-Z, and the Latin-1 capitals
    U+00C0-U+00DE except the multiplication sign U+00D7. *)
Definition lowerChar (c : ascii) : ascii :=
  let n := code c in
  if ((65 <=? n) && (n <=? 90))
     || ((192 <=? n) && (n <=? 222) && negb (n =? 215))
  then ascii_of_N (Z.to_N (n + 32))
  else c.

(** [String.prototype.toLowerCase] *)
Fixpoint toLowerCase (s : string) : string :=
  match s with
  | EmptyString => EmptyString
  | String c s' => String (lowerChar c) (toLowerCase s')
  end.

(** [s.startsWith(t)] at position 0, the test [includes] makes at each
    position. *)
Fixpoint startsWith (s t : string) : bool :=
  match t, s with
  | EmptyString, _ => true
  | String _ _, EmptyString => false
  | String b t', String a s' => Ascii.eqb a b && startsWith s' t'
  end.

(** [String.prototype.includes]: [t] occurs in [s] at some position. *)
Fixpoint includes (s t : string) : bool :=
  startsWith s t
  || match s with
     | EmptyString => false
     | String _ s' => includes s' t
     end.

Definition digitValue (c : ascii) : option Z :=
  let n := code c in
  if (48 <=? n) && (n <=? 57) then Some (n - 48) else None.

(** The longest prefix of decimal digits, as a number; [acc] is [None]
    until a digit has been read. *)
Fixpoint parseDigits (s : string) (acc : option Z) : option Z :=
  match s with
  | EmptyString => acc
  | String c s' =>
      match digitValue c with
      | Some d => parseDigits s' (Some (10 * default 0 acc + d))
      | None => acc
      end
  end.

(** [parseInt(s, 10)]; [None] is NaN.  Leading white space is skipped,
    one sign is accepted, the digits are read as far as they go and
    whatever follows is ignored.  The result is the mathematical
    integer: rounding to a double is monotone and exact on
    [[-65536, 65536]], so every comparison the component makes with 1
    and 65535 has the same outcome. *)
Definition parseInt (s : string) : option Z :=
  let str := trimStart s in
  let '(sign, digits) :=
    match str with
    | String "-" r => (-1, r)
    | String "+" r => (1, r)
    | _ => (1, str)
    end in
  match parseDigits digits None with
  | Some mathInt => Some (sign * mathInt)
  | None => None
  end.

(** [arr[i]] for a number [i]: [None] is [undefined]. *)
Definition index {A} (arr : list A) (i : Z) : option A :=
  if i <? 0 then None else arr !! Z.to_nat i.

(** [arr.slice(0, e)]: a negative [e] counts from the end. *)
Definition slice0 {A} (arr : list A) (e : Z) : list A :=
  let len := Z.of_nat (length arr) in
  let final := if e <? 0 then Z.max (len + e) 0 else Z.min e len in
  take (Z.to_nat final) arr.

(** [arr.findIndex(P)], scanning from position [i]. *)
Fixpoint findIndexFrom {A} (P : A -> bool) (arr : list A) (i : Z) : Z :=
  match arr with
  | [] => -1
  | x :: arr' => if P x then i else findIndexFrom P arr' (i + 1)
  end.

Definition findIndex {A} (P : A -> bool) (arr : list A) : Z :=
  findIndexFrom P arr 0.

(** [self.filter((x, index, self) => f x index self)], for the elements
    [arr] of [self] from position [i] on. *)
Fixpoint filterFrom {A} (f : A -> Z -> list A -> bool)
    (self arr : list A) (i : Z) : list A :=
  match arr with
  | [] => []
  | x :: arr' =>
      if f x i self then x :: filterFrom f self arr' (i + 1)
      else filterFrom f self arr' (i + 1)
  end.

Definition filterIndexed {A} (f : A -> Z -> list A -> bool)
    (self : list A) : list A :=
  filterFrom f self self 0.

End JS.

(** ** Data model *)

(** Modelled from the spec: [src/types.ts] is not among the sources.  A
    port binding has a private port, an optional public port and a
    protocol tag. *)
Record Port := mkPort {
  PrivatePort : Z;
  PublicPort : option Z;
  Type_ : string
}.

(** Modelled from the spec: [src/types.ts] is not among the sources.  A
    container record has an identifier, its names, an image reference,
    a lifecycle state, a creation time in seconds and its port
    bindings. *)
Record DockerContainer := mkContainer {
  Id : string;
  Names : list string;
  Image : string;
  State : string;
  Created : Z;
  Ports : list Port
}.

(** ** Persisted preferences *)

Definition HOSTNAME_STORAGE_KEY := "docker-port-viewer-hostname".
Definition SORT_OPTION_STORAGE_KEY := "docker-port-viewer-sort-option".
Definition MIN_PORT_STORAGE_KEY := "docker-port-viewer-min-port".
Definition MAX_PORT_STORAGE_KEY := "docker-port-viewer-max-port".

(** [localStorage] is a map from keys to strings; [getItem] is lookup. *)
Definition getStoredPortOrDefault (localStorage : gmap string string)
    (storageKey : string) (defaultValue : Z) : Z :=
  match localStorage !! storageKey with
  | None => defaultValue
  | Some stored =>
      if String.eqb stored "" then defaultValue
      else
        match JS.parseInt stored with
        | Some value =>
            if (1 <=? value) && (value <=? 65535) then value
            else defaultValue
        | None => defaultValue
        end
  end.

Definition initialMinPort (localStorage : gmap string string) : Z :=
  getStoredPortOrDefault localStorage MIN_PORT_STORAGE_KEY 1024.

Definition initialMaxPort (localStorage : gmap string string) : Z :=
  getStoredPortOrDefault localStorage MAX_PORT_STORAGE_KEY 49151.

(** ** Port availability calculator (the effect of lines 84-112) *)

(** The body of the inner [forEach]: a binding counts when its public
    port is truthy (present and not 0) and inside the range. *)
Definition addUsedPort (actualMinPort actualMaxPort : Z)
    (usedPorts : gset Z) (port : Port) : gset Z :=
  match PublicPort port with
  | Some p =>
      if negb (p =? 0) && (actualMinPort <=? p) && (p <=? actualMaxPort)
      then {[ p ]} ∪ usedPorts
      else usedPorts
  | None => usedPorts
  end.

(** The two nested [forEach] loops that fill [usedPorts]. *)
Definition collectUsedPorts (containers : list DockerContainer)
    (actualMinPort actualMaxPort : Z) : gset Z :=
  foldl (fun usedPorts container =>
    foldl (addUsedPort actualMinPort actualMaxPort) usedPorts
      (Ports container)) ∅ containers.

(** The [for] loop: [iterations] is the number of values of [port] left
    before [port <= actualMaxPort] fails. *)
Fixpoint scanPorts (usedPorts : gset Z) (port : Z) (iterations : nat)
    : option Z :=
  match iterations with
  | O => None
  | S n =>
      if bool_decide (port ∈ usedPorts) then scanPorts usedPorts (port + 1) n
      else Some port
  end.

(** The value handed to [setNextAvailablePort]; [None] is [null]. *)
Definition nextAvailablePort (containers : list DockerContainer)
    (minPort maxPort : Z) : option Z :=
  let validMinPort := Z.max 1 (Z.min 65535 minPort) in
  let validMaxPort := Z.max 1 (Z.min 65535 maxPort) in
  let actualMinPort := Z.min validMinPort validMaxPort in
  let actualMaxPort := Z.max validMinPort validMaxPort in
  let usedPorts := collectUsedPorts containers actualMinPort actualMaxPort in
  scanPorts usedPorts actualMinPort
    (Z.to_nat (actualMaxPort - actualMinPort + 1)).

(** ** Container list state

    [containers] and [filteredContainers] hold references to arrays in
    [heap]; [Array.prototype.sort] writes through the reference, while
    [Array.prototype.filter] and a fetched payload are new arrays. *)

Record ListState := mkListState {
  heap : gmap nat (list DockerContainer);
  containers : nat;
  filteredContainers : nat;
  loading : bool;
  error : option string
}.

Definition alloc (h : gmap nat (list DockerContainer))
    (arr : list DockerContainer) : gmap nat (list DockerContainer) * nat :=
  let r := fresh (dom h) in (<[r := arr]> h, r).

(** The array a reference points to. *)
Definition deref (h : gmap nat (list DockerContainer)) (r : nat)
    : list DockerContainer :=
  h !!! r.

Definition rawList (st : ListState) : list DockerContainer :=
  deref (heap st) (containers st).

Definition displayList (st : ListState) : list DockerContainer :=
  deref (heap st) (filteredContainers st).

(** [useState([])] twice: two distinct empty arrays. *)
Definition initialListState : ListState :=
  {| heap := {[ 0%nat := []; 1%nat := [] ]};
     containers := 0%nat;
     filteredContainers := 1%nat;
     loading := true;
     error := None |}.

(** ** Sorting

    [Array.prototype.sort] is a stable sort; for a consistent comparator
    its result is the one a stable insertion sort computes.  A comparator
    that throws ([None]) aborts the sort. *)
Section Sort.
Context {A : Type} (compareFn : A -> A -> option Z).

Fixpoint insertSorted (x : A) (sorted : list A) : option (list A) :=
  match sorted with
  | [] => Some [x]
  | y :: rest =>
      c ← compareFn x y;
      if c <=? 0 then Some (x :: sorted)
      else (fun rest' => y :: rest') <$> insertSorted x rest
  end.

Fixpoint sort (arr : list A) : option (list A) :=
  match arr with
  | [] => Some []
  | x :: arr' => sorted ← sort arr'; insertSorted x sorted
  end.
End Sort.

(** ** Filter/sort effect (lines 114-141) *)

Definition matchesSearch (searchTerm : string) (container : DockerContainer)
    : bool :=
  existsb (fun name =>
    JS.includes (JS.toLowerCase name) (JS.toLowerCase searchTerm))
    (Names container).

(** Lines 115-123: [filtered] is the [containers] array itself unless
    the trimmed search term is non-empty. *)
Definition filterStep (st : ListState) (searchTerm : string)
    : gmap nat (list DockerContainer) * nat :=
  if negb (String.eqb (JS.trim searchTerm) "") then
    alloc (heap st) (List.filter (matchesSearch searchTerm) (rawList st))
  else (heap st, containers st).

(** The array [filtered] refers to when line 125 is reached. *)
Definition filteredList (st : ListState) (searchTerm : string)
    : list DockerContainer :=
  let '(h, filtered) := filterStep st searchTerm in deref h filtered.

Section FilterSort.
(** [String.prototype.localeCompare] depends on the host's locale. *)
Variable localeCompare : string -> string -> Z.

(** The comparator of lines 125-138.  [x.Names[0]] is [undefined] for
    an empty name list: as the receiver of [localeCompare] it throws,
    as the argument it is compared as the string "undefined". *)
Definition compareContainers (sortOption : string)
    (a b : DockerContainer) : option Z :=
  if String.eqb sortOption "name-asc" then
    match Names a !! 0%nat with
    | Some name =>
        Some (localeCompare name (default "undefined" (Names b !! 0%nat)))
    | None => None
    end
  else if String.eqb sortOption "name-desc" then
    match Names b !! 0%nat with
    | Some name =>
        Some (localeCompare name (default "undefined" (Names a !! 0%nat)))
    | None => None
    end
  else if String.eqb sortOption "created-asc" then
    Some (Created b - Created a)
  else if String.eqb sortOption "created-desc" then
    Some (Created a - Created b)
  else Some 0.

(** The whole effect; [None] when the comparator throws. *)
Definition filterSortEffect (st : ListState)
    (searchTerm sortOption : string) : option ListState :=
  let '(h, filtered) := filterStep st searchTerm in
  sorted ← sort (compareContainers sortOption) (deref h filtered);
  Some {| heap := <[filtered := sorted]> h;
          containers := containers st;
          filteredContainers := filtered;
          loading := loading st;
          error := error st |}.
End FilterSort.

(** ** Data fetcher (lines 155-170) *)

(** How the awaited [axios.get] promise settles when a resolved body is
    a container array; [AxiosOutcome] below covers every body. *)
Inductive FetchOutcome :=
| Resolved (data : list DockerContainer)
| Rejected.

Definition FETCH_ERROR : string :=
  "Failed to fetch container information. Make sure the Docker socket is accessible.".

Definition setLoading (b : bool) (st : ListState) : ListState :=
  {| heap := heap st; containers := containers st;
     filteredContainers := filteredContainers st;
     loading := b; error := error st |}.

Definition setError (e : option string) (st : ListState) : ListState :=
  {| heap := heap st; containers := containers st;
     filteredContainers := filteredContainers st;
     loading := loading st; error := e |}.

(** [setContainers(data); setFilteredContainers(data)]: both cells get
    the one payload array. *)
Definition setBothLists (data : list DockerContainer) (st : ListState)
    : ListState :=
  let '(h, r) := alloc (heap st) data in
  {| heap := h; containers := r; filteredContainers := r;
     loading := loading st; error := error st |}.

Definition fetchContainers (outcome : FetchOutcome) (st : ListState)
    : ListState :=
  let st := setLoading true st in
  let st := setError None st in
  let st :=
    match outcome with
    | Resolved data => setBothLists data st
    | Rejected => setError (Some FETCH_ERROR) st
    end in
  setLoading false st.

(** *** The fetch with any response body

    The state cells are typed [DockerContainer[]], but [response.data]
    is stored as it comes: [axios] resolves with the parsed JSON value,
    or with the body text when the body is not JSON.  The definitions
    below let a cell hold a value that is not an array; on array
    payloads they agree with [fetchContainers] above. *)

(** [response.data] of a resolved request. *)
Inductive ResponseData :=
| ContainerArray (data : list DockerContainer)
| BodyText (text : string).

(** How the awaited [axios.get] promise settles, for any body. *)
Inductive AxiosOutcome :=
| AxiosResolved (data : ResponseData)
| AxiosRejected.

(** What a list cell holds: a reference to an array of the heap, or a
    value that is not an array. *)
Inductive CellValue :=
| ArrayRef (r : nat)
| NotArray (text : string).

Record FetchState := mkFetchState {
  fetchHeap : gmap nat (list DockerContainer);
  containersCell : CellValue;
  filteredContainersCell : CellValue;
  loadingCell : bool;
  errorCell : option string
}.

(** A state whose cells hold arrays, seen as a [FetchState]. *)
Definition widen (st : ListState) : FetchState :=
  {| fetchHeap := heap st;
     containersCell := ArrayRef (containers st);
     filteredContainersCell := ArrayRef (filteredContainers st);
     loadingCell := loading st;
     errorCell := error st |}.

(** The value a cell holds, arrays read through the heap. *)
Definition cellContent (h : gmap nat (list DockerContainer))
    (cell : CellValue) : ResponseData :=
  match cell with
  | ArrayRef r => ContainerArray (deref h r)
  | NotArray text => BodyText text
  end.

(** Lines 155-170 for any outcome: [setLoading(true)], [setError(null)],
    then in the [try] both cells get [response.data] unchecked, in the
    [catch] the error is set, and [finally] clears the loading flag. *)
Definition fetchContainersAny (outcome : AxiosOutcome) (st : FetchState)
    : FetchState :=
  match outcome with
  | AxiosResolved (ContainerArray data) =>
      let '(h, r) := alloc (fetchHeap st) data in
      {| fetchHeap := h;
         containersCell := ArrayRef r;
         filteredContainersCell := ArrayRef r;
         loadingCell := false;
         errorCell := None |}
  | AxiosResolved (BodyText text) =>
      {| fetchHeap := fetchHeap st;
         containersCell := NotArray text;
         filteredContainersCell := NotArray text;
         loadingCell := false;
         errorCell := None |}
  | AxiosRejected =>
      {| fetchHeap := fetchHeap st;
         containersCell := containersCell st;
         filteredContainersCell := filteredContainersCell st;
         loadingCell := false;
         errorCell := Some FETCH_ERROR |}
  end.

(** ** Embedded navigation controller (lines 172-204) *)

Record NavState := mkNavState {
  currentUrl : option string;
  iframeKey : Z;
  iframeHistory : list string;
  historyIndex : Z
}.

Definition initialNavState : NavState :=
  {| currentUrl := None; iframeKey := 0;
     iframeHistory := []; historyIndex := -1 |}.

(** The template literal [`http://${hostname}:${port}`]. *)
Definition generateLink (hostname : string) (port : Z) : string :=
  ("http://" ++ hostname ++ ":" ++ pretty port)%string.

Definition handleLinkClick (url : string) (st : NavState) : NavState :=
  {| currentUrl := Some url;
     iframeKey := iframeKey st + 1;
     iframeHistory := JS.slice0 (iframeHistory st) (historyIndex st + 1) ++ [url];
     historyIndex := historyIndex st + 1 |}.

Definition handleBack (st : NavState) : NavState :=
  if 0 <? historyIndex st then
    let newIndex := historyIndex st - 1 in
    {| currentUrl := JS.index (iframeHistory st) newIndex;
       iframeKey := iframeKey st + 1;
       iframeHistory := iframeHistory st;
       historyIndex := newIndex |}
  else st.

Definition handleForward (st : NavState) : NavState :=
  if historyIndex st <? Z.of_nat (length (iframeHistory st)) - 1 then
    let newIndex := historyIndex st + 1 in
    {| currentUrl := JS.index (iframeHistory st) newIndex;
       iframeKey := iframeKey st + 1;
       iframeHistory := iframeHistory st;
       historyIndex := newIndex |}
  else st.

Definition handleRefresh (st : NavState) : NavState :=
  {| currentUrl := currentUrl st;
     iframeKey := iframeKey st + 1;
     iframeHistory := iframeHistory st;
     historyIndex := historyIndex st |}.

Inductive NavOp :=
| Navigate (url : string)
| Back
| Forward
| Refresh.

Definition navStep (st : NavState) (op : NavOp) : NavState :=
  match op with
  | Navigate url => handleLinkClick url st
  | Back => handleBack st
  | Forward => handleForward st
  | Refresh => handleRefresh st
  end.

(** The state reached from the initial one by [ops], first to last. *)
Definition navRun (ops : list NavOp) : NavState :=
  foldl navStep initialNavState ops.

(** What the viewer pane shows (lines 523-548): the [iframe] is rendered
    for a truthy [currentUrl], the placeholder otherwise. *)
Definition viewerSrc (st : NavState) : option string :=
  match currentUrl st with
  | Some url => if String.eqb url "" then None else Some url
  | None => None
  end.

(** ** Port list of one container (lines 417-423) *)

Definition samePorts (p port : Port) : bool :=
  bool_decide (PublicPort p = PublicPort port)
  && (PrivatePort p =? PrivatePort port).

Definition displayedPorts (ports : list Port) : list Port :=
  JS.filterIndexed (fun port index self =>
    index =? JS.findIndex (fun p => samePorts p port) self) ports.

(** ** Specification-side definitions *)

(** One endpoint clamped into [[1, 65535]]. *)
Definition clamp (x : Z) : Z :=
  if x <? 1 then 1 else if 65535 <? x then 65535 else x.

(** [q] is the public port of some binding of some container and lies in
    [[lo, hi]]. *)
Definition occupied (cs : list DockerContainer) (lo hi q : Z) : Prop :=
  lo <= q <= hi /\
  exists c port, c ∈ cs /\ port ∈ Ports c /\ PublicPort port = Some q.

(** Every code unit of [s] is white space; true of the empty string. *)
Fixpoint allWhiteSpace (s : string) : bool :=
  match s with
  | EmptyString => true
  | String c s' => JS.isWhiteSpace c && allWhiteSpace s'
  end.

(** [term] occurs in [name] up to the case of letters. *)
Definition occursIgnoringCase (term name : string) : Prop :=
  exists before mid after,
    name = (before ++ mid ++ after)%string /\
    JS.toLowerCase mid = JS.toLowerCase term.

Definition hasMatchingName (term : string) (c : DockerContainer) : Prop :=
  exists name, name ∈ Names c /\ occursIgnoringCase term name.

(** The (public port, private port) pair of a binding. *)
Definition portPair (p : Port) : option Z * Z := (PublicPort p, PrivatePort p).

(** Keep a binding when its pair has not been seen before. *)
Fixpoint keepFirst (seen : list (option Z * Z)) (ports : list Port)
    : list Port :=
  match ports with
  | [] => []
  | p :: rest =>
      if bool_decide (portPair p ∈ seen) then keepFirst seen rest
      else p :: keepFirst (portPair p :: seen) rest
  end.

(** [a] may stand before [b] in a list ordered by ascending [key]. *)
Definition orderedBy {A} (key : A -> Z) (a b : A) : Prop := key a <= key b.

(** *** Decimal numerals, independently of [parseInt] *)

(** The ten digit characters and their values. *)
Definition decimalDigit (c : ascii) : option Z :=
  if Ascii.eqb c "0" then Some 0
  else if Ascii.eqb c "1" then Some 1
  else if Ascii.eqb c "2" then Some 2
  else if Ascii.eqb c "3" then Some 3
  else if Ascii.eqb c "4" then Some 4
  else if Ascii.eqb c "5" then Some 5
  else if Ascii.eqb c "6" then Some 6
  else if Ascii.eqb c "7" then Some 7
  else if Ascii.eqb c "8" then Some 8
  else if Ascii.eqb c "9" then Some 9
  else None.

(** The number a string of digits denotes in positional notation, most
    significant digit first; [None] when a character is not a digit. *)
Fixpoint numeralValue (digits : string) : option Z :=
  match digits with
  | EmptyString => Some 0
  | String c rest =>
      match decimalDigit c, numeralValue rest with
      | Some d, Some v => Some (d * 10 ^ Z.of_nat (String.length rest) + v)
      | _, _ => None
      end
  end.

(** TAB, LF, VT, FF, CR, space and no-break space. *)
Definition blankChars : list ascii :=
  [ascii_of_nat 9; ascii_of_nat 10; ascii_of_nat 11; ascii_of_nat 12;
   ascii_of_nat 13; ascii_of_nat 32; ascii_of_nat 160].

Fixpoint allBlank (s : string) : Prop :=
  match s with
  | EmptyString => True
  | String c s' => c ∈ blankChars /\ allBlank s'
  end.

Definition startsWithDigit (s : string) : Prop :=
  match s with
  | EmptyString => False
  | String c _ => is_Some (decimalDigit c)
  end.

(** The whole string is an integer numeral: an optional sign and one or
    more digits, nothing else. *)
Definition denotesInteger (s : string) (v : Z) : Prop :=
  exists sign digits n,
    s = (sign ++ digits)%string
    /\ digits <> "" /\ numeralValue digits = Some n
    /\ ((sign = "" /\ v = n) \/ (sign = "+" /\ v = n)
        \/ (sign = "-" /\ v = - n)).

(** The stored string reads as the port [v]: blanks, an optional plus
    sign, one or more digits denoting [v] in [[1, 65535]], and then the
    end of the string or a character that is not a digit. *)
Definition readsAsPort (stored : option string) (v : Z) : Prop :=
  exists blanks plus digits rest,
    stored = Some (blanks ++ plus ++ digits ++ rest)%string
    /\ allBlank blanks
    /\ (plus = "" \/ plus = "+")
    /\ digits <> "" /\ numeralValue digits = Some v
    /\ ~ startsWithDigit rest
    /\ 1 <= v <= 65535.

(** [parseInt] reads the stored value as the integer [v] of
    [[1, 65535]]: the code's own reading, compared with [readsAsPort]. *)
Definition parsesAsPort (stored : option string) (v : Z) : Prop :=
  exists s, stored = Some s /\ JS.parseInt s = Some v /\ 1 <= v <= 65535.

(** The index is a position of the history, or -1. *)
Definition indexInBounds (st : NavState) : Prop :=
  -1 <= historyIndex st <= Z.of_nat (length (iframeHistory st)) - 1.

(** The active URL is the history entry at the index. *)
Definition urlAtIndex (st : NavState) : Prop :=
  currentUrl st = JS.index (iframeHistory st) (historyIndex st).

(** The operation does not navigate to the empty string.  Every URL the
    component passes to [handleLinkClick] is a [generateLink] result. *)
Definition truthyUrl (op : NavOp) : Prop :=
  match op with
  | Navigate url => url <> ""
  | _ => True
  end.

(** ** Preference state and its handlers (lines 56-77, 143-153, 230-244) *)

Record PrefState := mkPrefState {
  hostname : string;
  sortOption : string;
  minPort : Z;
  maxPort : Z;
  localStorage : gmap string string
}.

(** [localStorage.getItem(key) || fallback]: a missing or empty item
    gives the fallback. *)
Definition getItemOr (storage : gmap string string) (key fallback : string)
    : string :=
  match storage !! key with
  | Some stored => if String.eqb stored "" then fallback else stored
  | None => fallback
  end.

Definition initialHostname (storage : gmap string string) : string :=
  getItemOr storage HOSTNAME_STORAGE_KEY "localhost".

(** The stored string is cast to [SortOption] without a check. *)
Definition initialSortOption (storage : gmap string string) : string :=
  getItemOr storage SORT_OPTION_STORAGE_KEY "name-asc".

(** The four [useState] initialisers, run against the storage found at
    start-up. *)
Definition initialPrefState (storage : gmap string string) : PrefState :=
  {| hostname := initialHostname storage;
     sortOption := initialSortOption storage;
     minPort := initialMinPort storage;
     maxPort := initialMaxPort storage;
     localStorage := storage |}.

Definition handleHostnameChange (newHostname : string) (st : PrefState)
    : PrefState :=
  {| hostname := newHostname;
     sortOption := sortOption st;
     minPort := minPort st;
     maxPort := maxPort st;
     localStorage := <[HOSTNAME_STORAGE_KEY := newHostname]> (localStorage st) |}.

Definition handleSortChange (newSortOption : string) (st : PrefState)
    : PrefState :=
  {| hostname := hostname st;
     sortOption := newSortOption;
     minPort := minPort st;
     maxPort := maxPort st;
     localStorage :=
       <[SORT_OPTION_STORAGE_KEY := newSortOption]> (localStorage st) |}.

(** [value.toString()] of an integer is its decimal numeral, [pretty]. *)
Definition handleMinPortChange (input : string) (st : PrefState)
    : PrefState :=
  match JS.parseInt input with
  | Some value =>
      if (1 <=? value) && (value <=? 65535) then
        {| hostname := hostname st;
           sortOption := sortOption st;
           minPort := value;
           maxPort := maxPort st;
           localStorage :=
             <[MIN_PORT_STORAGE_KEY := pretty value]> (localStorage st) |}
      else st
  | None => st
  end.

Definition handleMaxPortChange (input : string) (st : PrefState)
    : PrefState :=
  match JS.parseInt input with
  | Some value =>
      if (1 <=? value) && (value <=? 65535) then
        {| hostname := hostname st;
           sortOption := sortOption st;
           minPort := minPort st;
           maxPort := value;
           localStorage :=
             <[MAX_PORT_STORAGE_KEY := pretty value]> (localStorage st) |}
      else st
  | None => st
  end.

(** One edit of a preference field; the string is [e.target.value]. *)
Inductive PrefEdit :=
| EditHostname (value : string)
| EditSort (value : string)
| EditMinPort (value : string)
| EditMaxPort (value : string).

Definition prefStep (st : PrefState) (edit : PrefEdit) : PrefState :=
  match edit with
  | EditHostname value => handleHostnameChange value st
  | EditSort value => handleSortChange value st
  | EditMinPort value => handleMinPortChange value st
  | EditMaxPort value => handleMaxPortChange value st
  end.

(** The state after start-up on [storage] and then [edits], first to
    last. *)
Definition prefRun (storage : gmap string string) (edits : list PrefEdit)
    : PrefState :=
  foldl prefStep (initialPrefState storage) edits.

(** ** Navigation buttons and context menu (lines 206-228, 492-505) *)

(** The [disabled] attribute of the Back button. *)
Definition backDisabled (st : NavState) : bool := historyIndex st <=? 0.

(** The [disabled] attribute of the Forward button. *)
Definition forwardDisabled (st : NavState) : bool :=
  Z.of_nat (length (iframeHistory st)) - 1 <=? historyIndex st.

(** The viewer together with the context menu.  [anchorEl] is a handle
    of the element the menu hangs on; [opened] lists the URLs handed to
    [window.open], oldest first. *)
Record ViewerState := mkViewerState {
  nav : NavState;
  anchorEl : option nat;
  selectedUrl : option string;
  opened : list string
}.

Definition handleMenuClick (currentTarget : nat) (url : string)
    (st : ViewerState) : ViewerState :=
  {| nav := nav st;
     anchorEl := Some currentTarget;
     selectedUrl := Some url;
     opened := opened st |}.

Definition handleMenuClose (st : ViewerState) : ViewerState :=
  {| nav := nav st;
     anchorEl := None;
     selectedUrl := None;
     opened := opened st |}.

(** [if (selectedUrl)] holds for a present, non-empty string. *)
Definition truthy (url : option string) : option string :=
  match url with
  | Some u => if String.eqb u "" then None else Some u
  | None => None
  end.

Definition handleOpenInIframe (st : ViewerState) : ViewerState :=
  let st' :=
    match truthy (selectedUrl st) with
    | Some url =>
        {| nav := handleLinkClick url (nav st);
           anchorEl := anchorEl st;
           selectedUrl := selectedUrl st;
           opened := opened st |}
    | None => st
    end in
  handleMenuClose st'.

Definition handleOpenInNewTab (st : ViewerState) : ViewerState :=
  let st' :=
    match truthy (selectedUrl st) with
    | Some url =>
        {| nav := nav st;
           anchorEl := anchorEl st;
           selectedUrl := selectedUrl st;
           opened := (opened st ++ [url])%list |}
    | None => st
    end in
  handleMenuClose st'.

(** The URLs of the Navigate operations of [ops], in order. *)
Definition navigatedUrls (ops : list NavOp) : list string :=
  omap (fun op => match op with Navigate url => Some url | _ => None end) ops.

(** The operation is Back, Forward or Refresh. *)
Definition keepsHistory (op : NavOp) : Prop :=
  match op with
  | Navigate _ => False
  | _ => True
  end.

(** * Properties *)

Example parseInt_abc : JS.parseInt "abc" = None.
Proof. reflexivity. Qed.

Example parseInt_8080 : JS.parseInt "  8080px" = Some 8080.
Proof. reflexivity. Qed.

Example parseInt_neg : JS.parseInt "-12.5" = Some (-12).
Proof. reflexivity. Qed.

(** ** Persisted preferences *)

Lemma getStoredPortOrDefault_parsed ls key d v :
  parsesAsPort (ls !! key) v -> getStoredPortOrDefault ls key d = v.
Proof.
  intros (s & Hs & Hp & Hlo & Hhi). unfold getStoredPortOrDefault.
  rewrite Hs. destruct (String.eqb_spec s "") as [-> | _].
  - discriminate Hp.
  - rewrite Hp.
    assert (H1 : (1 <=? v) = true) by (apply Z.leb_le; exact Hlo).
    assert (H2 : (v <=? 65535) = true) by (apply Z.leb_le; exact Hhi).
    rewrite H1, H2. reflexivity.
Qed.

Lemma getStoredPortOrDefault_default ls key d :
  (forall v, ~ parsesAsPort (ls !! key) v) ->
  getStoredPortOrDefault ls key d = d.
Proof.
  intros Hno. unfold getStoredPortOrDefault.
  destruct (ls !! key) as [s |] eqn:Hs; [| reflexivity].
  destruct (String.eqb s ""); [reflexivity |].
  destruct (JS.parseInt s) as [v |] eqn:Hp; [| reflexivity].
  destruct (1 <=? v) eqn:H1; [| reflexivity].
  destruct (v <=? 65535) eqn:H2; [| reflexivity].
  exfalso. apply (Hno v). exists s.
  apply Z.leb_le in H1. apply Z.leb_le in H2. auto.
Qed.

Lemma getStoredPortOrDefault_range ls key d :
  1 <= d <= 65535 -> 1 <= getStoredPortOrDefault ls key d <= 65535.
Proof.
  intros Hd. unfold getStoredPortOrDefault.
  destruct (ls !! key) as [s |]; [| exact Hd].
  destruct (String.eqb s ""); [exact Hd |].
  destruct (JS.parseInt s) as [v |]; [| exact Hd].
  destruct (Z.leb_spec 1 v); [| exact Hd].
  destruct (Z.leb_spec v 65535); [| exact Hd].
  simpl. lia.
Qed.

(** ** Port availability calculator *)

Example port_boundary_occupied :
  nextAvailablePort
    [mkContainer "1" ["web"] "nginx" "running" 100 [mkPort 80 (Some 8080) "tcp"]]
    8080 8080 = None.
Proof. vm_compute. reflexivity. Qed.

Example port_next_free :
  nextAvailablePort
    [mkContainer "1" ["web"] "nginx" "running" 100 [mkPort 80 (Some 8080) "tcp"]]
    8081 8082 = Some 8081.
Proof. vm_compute. reflexivity. Qed.

Lemma clamp_max_min x : Z.max 1 (Z.min 65535 x) = clamp x.
Proof.
  unfold clamp.
  destruct (Z.ltb_spec x 1); [lia |].
  destruct (Z.ltb_spec 65535 x); lia.
Qed.

Lemma clamp_range x : 1 <= clamp x <= 65535.
Proof.
  unfold clamp.
  destruct (Z.ltb_spec x 1); [lia |].
  destruct (Z.ltb_spec 65535 x); lia.
Qed.

Section UsedPorts.
Variables lo hi : Z.

Lemma elem_of_addUsedPort q acc port :
  q ∈ addUsedPort lo hi acc port <->
  q ∈ acc \/ (PublicPort port = Some q /\ q <> 0 /\ lo <= q <= hi).
Proof.
  unfold addUsedPort. destruct (PublicPort port) as [p |].
  - destruct (Z.eqb_spec p 0); simpl.
    + split; [auto | intros [? | (Heq & ? & ?)]; [done |]].
      inversion Heq; subst; done.
    + destruct (Z.leb_spec lo p); simpl.
      * destruct (Z.leb_spec p hi).
        -- rewrite elem_of_union, elem_of_singleton.
           split.
           ++ intros [-> | ?]; [right | left]; auto with lia.
           ++ intros [? | (Heq & ? & ?)]; [right; done |].
              inversion Heq; subst; left; done.
        -- split; [auto | intros [? | (Heq & ? & ?)]; [done |]].
           inversion Heq; subst; lia.
      * split; [auto | intros [? | (Heq & ? & ?)]; [done |]].
        inversion Heq; subst; lia.
  - split; [auto | intros [? | (Heq & ? & ?)]; [done | discriminate]].
Qed.

Lemma elem_of_foldl_addUsedPort q ports acc :
  q ∈ foldl (addUsedPort lo hi) acc ports <->
  q ∈ acc \/
  (q <> 0 /\ lo <= q <= hi /\ exists port, port ∈ ports /\ PublicPort port = Some q).
Proof.
  revert acc. induction ports as [| p ports IH]; intros acc; simpl.
  - split; [auto |]. intros [? | (_ & _ & port & Hin & _)]; [done |].
    inversion Hin.
  - rewrite IH, elem_of_addUsedPort. split.
    + intros [[? | (Hp & ? & ?)] | (? & ? & port & Hin & Hp)].
      * left; done.
      * right. split; [done |]. split; [done |]. exists p. split; [left | done].
      * right. split; [done |]. split; [done |]. exists port. split; [by right | done].
    + intros [? | (? & ? & port & Hin & Hp)].
      * left; left; done.
      * apply elem_of_cons in Hin as [-> | Hin].
        -- left; right; done.
        -- right. split; [done |]. split; [done |]. exists port; done.
Qed.

Lemma elem_of_collect_acc q cs acc :
  q ∈ foldl (fun usedPorts container =>
               foldl (addUsedPort lo hi) usedPorts (Ports container)) acc cs <->
  q ∈ acc \/ (q <> 0 /\ occupied cs lo hi q).
Proof.
  revert acc. induction cs as [| c cs IH]; intros acc; simpl.
  - split; [auto |].
    intros [? | (_ & _ & c & port & Hin & _)]; [done | inversion Hin].
  - rewrite IH, elem_of_foldl_addUsedPort. unfold occupied. split.
    + intros [[? | (? & ? & port & Hin & Hp)] | (? & ? & c' & port & Hc & Hin & Hp)].
      * left; done.
      * right. repeat split; try tauto. exists c, port.
        split; [left | done].
      * right. repeat split; try tauto. exists c', port.
        split; [by right | done].
    + intros [? | (? & ? & c' & port & Hc & Hin & Hp)].
      * left; left; done.
      * apply elem_of_cons in Hc as [-> | Hc].
        -- left; right. repeat split; try tauto. exists port; done.
        -- right. repeat split; try tauto. exists c', port; done.
Qed.

Lemma elem_of_collectUsedPorts q cs :
  q ∈ collectUsedPorts cs lo hi <-> q <> 0 /\ occupied cs lo hi q.
Proof.
  unfold collectUsedPorts.
  rewrite elem_of_collect_acc. split; [| auto].
  intros [H | H]; [| done]. by apply not_elem_of_empty in H.
Qed.
End UsedPorts.

Lemma scanPorts_spec used n : forall port,
  match scanPorts used port n with
  | Some p =>
      port <= p < port + Z.of_nat n /\ (p ∉ used) /\
      forall q, port <= q < p -> q ∈ used
  | None => forall q, port <= q < port + Z.of_nat n -> q ∈ used
  end.
Proof.
  induction n as [| n IH]; intros port; simpl scanPorts.
  - intros q Hq. lia.
  - destruct (bool_decide_reflect (port ∈ used)) as [Hin | Hout].
    + specialize (IH (port + 1)).
      destruct (scanPorts used (port + 1) n) as [p |].
      * destruct IH as (Hr & Hp & Hbelow). repeat split; [lia | lia | done |].
        intros q Hq. destruct (Z.eq_dec q port) as [-> | Hne]; [done |].
        apply Hbelow. lia.
      * intros q Hq. destruct (Z.eq_dec q port) as [-> | Hne]; [done |].
        apply IH. lia.
    + repeat split; [lia | lia | done |]. intros q Hq. lia.
Qed.

(** C1: both endpoints are clamped into [[1, 65535]] and ordered; the
    result is the least integer of that range that no container has as a
    public port, and it is the absent value [None] exactly when every
    integer of the range is such a port. *)
Theorem nextAvailablePort_least_free cs minPort maxPort :
  let lo := Z.min (clamp minPort) (clamp maxPort) in
  let hi := Z.max (clamp minPort) (clamp maxPort) in
  1 <= lo <= hi /\ hi <= 65535 /\
  match nextAvailablePort cs minPort maxPort with
  | Some p =>
      lo <= p <= hi /\ ~ occupied cs lo hi p /\
      forall q, lo <= q < p -> occupied cs lo hi q
  | None => forall q, lo <= q <= hi -> occupied cs lo hi q
  end.
Proof.
  intros lo hi.
  pose proof (clamp_range minPort) as Hmin.
  pose proof (clamp_range maxPort) as Hmax.
  assert (Hlo : 1 <= lo <= hi) by (unfold lo, hi; lia).
  assert (Hhi : hi <= 65535) by (unfold hi; lia).
  split; [exact Hlo |]. split; [exact Hhi |].
  unfold nextAvailablePort. rewrite !clamp_max_min. fold lo hi.
  pose proof (scanPorts_spec (collectUsedPorts cs lo hi)
                (Z.to_nat (hi - lo + 1)) lo) as Hscan.
  destruct (scanPorts _ lo _) as [p |].
  - destruct Hscan as (Hr & Hfree & Hbelow). split; [lia |]. split.
    + intros Hocc. apply Hfree. apply elem_of_collectUsedPorts.
      split; [lia | exact Hocc].
    + intros q Hq. apply Hbelow in Hq.
      apply elem_of_collectUsedPorts in Hq. tauto.
  - intros q Hq.
    assert (Hin : q ∈ collectUsedPorts cs lo hi) by (apply Hscan; lia).
    apply elem_of_collectUsedPorts in Hin. tauto.
Qed.

(** ** Embedded navigation controller *)

Example nav_back_then_navigate :
  navRun [Navigate "a"; Navigate "b"; Back; Navigate "c"]
  = {| currentUrl := Some "c"; iframeKey := 4;
       iframeHistory := ["a"; "c"]; historyIndex := 1 |}.
Proof. reflexivity. Qed.

Lemma slice0_take {A} (arr : list A) (e : Z) :
  0 <= e -> JS.slice0 arr e = take (Z.to_nat e) arr.
Proof.
  intros He. unfold JS.slice0.
  destruct (Z.ltb_spec e 0) as [? | _]; [lia |].
  destruct (Z.le_gt_cases e (Z.of_nat (length arr))) as [Hle | Hgt].
  - rewrite Z.min_l by lia. reflexivity.
  - rewrite Z.min_r by lia. rewrite Nat2Z.id.
    rewrite !take_ge by lia. reflexivity.
Qed.

Lemma handleLinkClick_history st u :
  indexInBounds st ->
  iframeHistory (handleLinkClick u st)
  = (take (Z.to_nat (historyIndex st + 1)) (iframeHistory st) ++ [u])%list.
Proof.
  intros [Hlo Hhi]. simpl. rewrite slice0_take by lia. reflexivity.
Qed.

Lemma handleLinkClick_length st u :
  indexInBounds st ->
  Z.of_nat (length (iframeHistory (handleLinkClick u st)))
  = historyIndex st + 2.
Proof.
  intros Hb. rewrite handleLinkClick_history by exact Hb.
  destruct Hb as [Hlo Hhi].
  rewrite length_app, length_take. simpl. lia.
Qed.

Lemma navStep_indexInBounds st op :
  indexInBounds st -> indexInBounds (navStep st op).
Proof.
  intros Hb. destruct op as [u | | |]; simpl navStep.
  - unfold indexInBounds. rewrite handleLinkClick_length by exact Hb.
    destruct Hb. simpl. lia.
  - unfold handleBack. destruct (Z.ltb_spec 0 (historyIndex st)); [| exact Hb].
    unfold indexInBounds in *. simpl. lia.
  - unfold handleForward.
    destruct (Z.ltb_spec (historyIndex st)
                (Z.of_nat (length (iframeHistory st)) - 1)); [| exact Hb].
    unfold indexInBounds in *. simpl. lia.
  - exact Hb.
Qed.

Lemma index_last {A} (l : list A) (x : A) (i : Z) :
  i = Z.of_nat (length l) -> JS.index (l ++ [x])%list i = Some x.
Proof.
  intros ->. unfold JS.index.
  destruct (Z.ltb_spec (Z.of_nat (length l)) 0); [lia |].
  rewrite Nat2Z.id. apply list_lookup_middle. reflexivity.
Qed.

Lemma navStep_urlAtIndex st op :
  indexInBounds st -> urlAtIndex st -> urlAtIndex (navStep st op).
Proof.
  intros Hb Hu. destruct op as [u | | |]; simpl navStep.
  - unfold urlAtIndex. rewrite handleLinkClick_history by exact Hb.
    simpl currentUrl. simpl historyIndex. symmetry. apply index_last.
    destruct Hb. rewrite length_take. lia.
  - unfold handleBack. destruct (0 <? historyIndex st); [| exact Hu].
    reflexivity.
  - unfold handleForward.
    destruct (historyIndex st <? _); [| exact Hu]. reflexivity.
  - exact Hu.
Qed.

Lemma navRun_snoc ops op : navRun (ops ++ [op])%list = navStep (navRun ops) op.
Proof. unfold navRun. rewrite foldl_app. reflexivity. Qed.

Lemma navRun_invariant ops :
  indexInBounds (navRun ops) /\ urlAtIndex (navRun ops).
Proof.
  induction ops as [| op ops [Hb Hu]] using rev_ind.
  - split; [unfold indexInBounds; simpl; lia | reflexivity].
  - rewrite navRun_snoc. split.
    + apply navStep_indexInBounds, Hb.
    + apply navStep_urlAtIndex; assumption.
Qed.

(** C2: from a state whose index is within [[-1, length-1]], Navigate(u)
    leaves the first index+1 entries of the old history followed by [u],
    and the index at the last position; Navigate(a), Navigate(b), Back(),
    Navigate(c) from the initial state ends with history [[a; c]] and
    index 1. *)
Theorem navigate_truncates_appends (st : NavState) (u : string) :
  -1 <= historyIndex st <= Z.of_nat (length (iframeHistory st)) - 1 ->
  iframeHistory (navStep st (Navigate u))
  = (take (Z.to_nat (historyIndex st + 1)) (iframeHistory st) ++ [u])%list
  /\ historyIndex (navStep st (Navigate u))
     = Z.of_nat (length (iframeHistory (navStep st (Navigate u)))) - 1
  /\ forall a b c,
       iframeHistory (navRun [Navigate a; Navigate b; Back; Navigate c])
       = [a; c]
       /\ historyIndex (navRun [Navigate a; Navigate b; Back; Navigate c]) = 1.
Proof.
  intros Hb. change (indexInBounds st) in Hb. simpl navStep.
  split; [apply handleLinkClick_history, Hb |]. split.
  - rewrite handleLinkClick_length by exact Hb. simpl. lia.
  - intros a b c. split; reflexivity.
Qed.

Lemma navigate_truncates_appends_witness :
  let st := navRun [Navigate "a"; Navigate "b"; Back] in
  -1 <= historyIndex st <= Z.of_nat (length (iframeHistory st)) - 1
  /\ iframeHistory (navStep st (Navigate "c")) = ["a"; "c"]
  /\ historyIndex (navStep st (Navigate "c")) = 1.
Proof.
  intros st.
  assert (Hb : -1 <= historyIndex st
                  <= Z.of_nat (length (iframeHistory st)) - 1)
    by (simpl; lia).
  split; [exact Hb |].
  destruct (navigate_truncates_appends st "c" Hb) as (Hh & Hi & _).
  split; [exact Hh | exact Hi].
Defined.

(** C6: after any sequence of Navigate, Back and Forward from the
    initial state (and Refresh, which changes neither), the index is
    within [[-1, length-1]]. *)
Theorem nav_index_within_history (ops : list NavOp) :
  -1 <= historyIndex (navRun ops)
     <= Z.of_nat (length (iframeHistory (navRun ops))) - 1.
Proof. apply navRun_invariant. Qed.

Lemma generateLink_truthy hostname port : generateLink hostname port <> "".
Proof. unfold generateLink. simpl. discriminate. Qed.

Lemma navStep_history_truthy st op :
  truthyUrl op ->
  Forall (fun url => url <> "") (iframeHistory st) ->
  Forall (fun url => url <> "") (iframeHistory (navStep st op)).
Proof.
  intros Hop Hh. destruct op as [u | | |]; simpl navStep.
  - simpl. apply Forall_app. split.
    + unfold JS.slice0. apply Forall_take, Hh.
    + constructor; [exact Hop | constructor].
  - unfold handleBack. destruct (0 <? historyIndex st); exact Hh.
  - unfold handleForward. destruct (historyIndex st <? _); exact Hh.
  - exact Hh.
Qed.

Lemma navRun_history_truthy ops :
  Forall truthyUrl ops ->
  Forall (fun url => url <> "") (iframeHistory (navRun ops)).
Proof.
  induction ops as [| op ops IH] using rev_ind; intros Hops.
  - constructor.
  - apply Forall_app in Hops as [Hops Hop]. rewrite navRun_snoc.
    apply navStep_history_truthy; [| apply IH, Hops].
    inversion Hop; assumption.
Qed.

Lemma index_elem_of {A} (l : list A) (i : Z) (x : A) :
  JS.index l i = Some x -> x ∈ l.
Proof.
  unfold JS.index. destruct (i <? 0); [discriminate |].
  apply list_elem_of_lookup_2.
Qed.

(** C10: after any sequence of Navigate, Back, Forward and Refresh from
    the initial state, the active URL is [history[index]] when the index
    is not negative, and it is absent exactly when the index is -1.  The
    viewer shows that URL as long as no operation navigated to the empty
    string. *)
Theorem nav_active_url_is_history_entry (ops : list NavOp) :
  (0 <= historyIndex (navRun ops) ->
   exists url,
     currentUrl (navRun ops) = Some url /\
     iframeHistory (navRun ops) !! Z.to_nat (historyIndex (navRun ops))
     = Some url)
  /\ (currentUrl (navRun ops) = None <-> historyIndex (navRun ops) = -1)
  /\ (Forall truthyUrl ops -> viewerSrc (navRun ops) = currentUrl (navRun ops)).
Proof.
  destruct (navRun_invariant ops) as [[Hlo Hhi] Hu].
  assert (Hview : Forall truthyUrl ops ->
                  viewerSrc (navRun ops) = currentUrl (navRun ops)).
  { intros Hops. unfold viewerSrc.
    destruct (currentUrl (navRun ops)) as [url |] eqn:Hc; [| reflexivity].
    pose proof Hu as Hin. unfold urlAtIndex in Hin. rewrite Hc in Hin.
    symmetry in Hin. apply index_elem_of in Hin.
    pose proof (navRun_history_truthy ops Hops) as Hall.
    rewrite Forall_forall in Hall. apply Hall in Hin.
    destruct (String.eqb_spec url ""); [contradiction | reflexivity]. }
  unfold urlAtIndex, JS.index in Hu.
  destruct (Z.ltb_spec (historyIndex (navRun ops)) 0) as [Hneg | Hpos].
  - split; [lia |]. split; [| exact Hview].
    split; [lia | intros _; exact Hu].
  - destruct (lookup_lt_is_Some_2 (iframeHistory (navRun ops))
                (Z.to_nat (historyIndex (navRun ops)))) as [url Hurl]; [lia |].
    rewrite Hurl in Hu. split; [| split; [| exact Hview]].
    + intros _. exists url. split; assumption.
    + rewrite Hu. split; [discriminate | lia].
Qed.

(** ** Port list of one container *)

Lemma samePorts_portPair p port :
  samePorts p port = true <-> portPair p = portPair port.
Proof.
  unfold samePorts, portPair.
  rewrite andb_true_iff, bool_decide_eq_true, Z.eqb_eq.
  split; [intros [-> ->]; reflexivity | intros [= -> ->]; done].
Qed.

Section FindIndex.
Context {A : Type} (P : A -> bool).

Lemma findIndexFrom_found pre : forall k,
  (exists y, y ∈ pre /\ P y = true) ->
  forall rest, k <= JS.findIndexFrom P (pre ++ rest)%list k
               < k + Z.of_nat (length pre).
Proof.
  induction pre as [| y pre IH]; intros k (z & Hin & Hz) rest.
  - inversion Hin.
  - simpl. destruct (P y) eqn:Hy; [lia |].
    apply elem_of_cons in Hin as [-> | Hin]; [congruence |].
    specialize (IH (k + 1) (ex_intro _ z (conj Hin Hz)) rest). lia.
Qed.

Lemma findIndexFrom_first pre x rest : forall k,
  (forall y, y ∈ pre -> P y = false) -> P x = true ->
  JS.findIndexFrom P (pre ++ x :: rest)%list k = k + Z.of_nat (length pre).
Proof.
  induction pre as [| y pre IH]; intros k Hpre Hx; simpl.
  - rewrite Hx. lia.
  - rewrite (Hpre y) by left. rewrite IH; [lia | | exact Hx].
    intros z Hz. apply Hpre. by right.
Qed.
End FindIndex.

Lemma filterFrom_keepFirst arr : forall pre seen,
  (forall k, k ∈ seen <-> k ∈ portPair <$> pre) ->
  JS.filterFrom (fun port index self =>
      index =? JS.findIndex (fun p => samePorts p port) self)
    (pre ++ arr)%list arr (Z.of_nat (length pre))
  = keepFirst seen arr.
Proof.
  induction arr as [| x arr IH]; intros pre seen Hseen; simpl.
  - reflexivity.
  - assert (Hnext : (pre ++ x :: arr)%list = ((pre ++ [x]) ++ arr)%list)
      by (rewrite <- app_assoc; reflexivity).
    assert (Hlen : Z.of_nat (length pre) + 1
                   = Z.of_nat (length (pre ++ [x])%list))
      by (rewrite length_app; simpl; lia).
    destruct (bool_decide_reflect (portPair x ∈ seen)) as [Hin | Hout].
    + pose proof Hin as Hold.
      apply Hseen, list_elem_of_fmap in Hin as (y & Hy & Hin).
      pose proof (findIndexFrom_found (fun p => samePorts p x) pre 0
                    (ex_intro _ y (conj Hin (proj2 (samePorts_portPair y x)
                                                   (eq_sym Hy))))
                    (x :: arr)) as Hlt.
      unfold JS.findIndex.
      destruct (Z.eqb_spec (Z.of_nat (length pre))
                  (JS.findIndexFrom (fun p => samePorts p x)
                     (pre ++ x :: arr)%list 0)) as [Heq | _]; [lia |].
      rewrite Hnext, Hlen. apply IH. intros k.
      rewrite fmap_app, elem_of_app, <- Hseen. simpl.
      rewrite list_elem_of_singleton.
      split; [auto | intros [? | ->]; [done | exact Hold]].
    + unfold JS.findIndex. rewrite findIndexFrom_first.
      * rewrite Z.add_0_l, Z.eqb_refl. f_equal.
        rewrite Hnext, Hlen. apply IH. intros k.
        rewrite fmap_app, elem_of_app, elem_of_cons, <- Hseen. simpl.
        rewrite list_elem_of_singleton. tauto.
      * intros y Hy. destruct (samePorts y x) eqn:Hs; [| reflexivity].
        exfalso. apply Hout, Hseen, list_elem_of_fmap. exists y.
        apply samePorts_portPair in Hs. auto.
      * apply samePorts_portPair. reflexivity.
Qed.

Lemma keepFirst_sublist ports : forall seen,
  keepFirst seen ports `sublist_of` ports.
Proof.
  induction ports as [| p ports IH]; intros seen; simpl.
  - constructor.
  - destruct (bool_decide (portPair p ∈ seen)).
    + apply sublist_cons, IH.
    + apply sublist_skip, IH.
Qed.

Lemma keepFirst_fresh ports : forall seen k,
  k ∈ portPair <$> keepFirst seen ports -> k ∉ seen.
Proof.
  induction ports as [| p ports IH]; intros seen k Hk; simpl in Hk.
  - inversion Hk.
  - destruct (bool_decide_reflect (portPair p ∈ seen)) as [Hin | Hout].
    + apply (IH _ _ Hk).
    + rewrite fmap_cons in Hk. apply elem_of_cons in Hk as [-> | Hk].
      * exact Hout.
      * apply IH in Hk. intros Hin. apply Hk. by right.
Qed.

Lemma keepFirst_NoDup ports : forall seen,
  NoDup (portPair <$> keepFirst seen ports).
Proof.
  induction ports as [| p ports IH]; intros seen; simpl.
  - constructor.
  - destruct (bool_decide (portPair p ∈ seen)); [apply IH |].
    rewrite fmap_cons. apply NoDup_cons. split; [| apply IH].
    intros Hin. apply keepFirst_fresh in Hin. apply Hin. left.
Qed.

Lemma keepFirst_covers ports : forall seen p,
  p ∈ ports ->
  portPair p ∈ seen \/ portPair p ∈ portPair <$> keepFirst seen ports.
Proof.
  induction ports as [| x ports IH]; intros seen p Hp; simpl.
  - inversion Hp.
  - apply elem_of_cons in Hp as [-> | Hp].
    + destruct (bool_decide_reflect (portPair x ∈ seen)); [by left |].
      right. rewrite fmap_cons. left.
    + destruct (bool_decide_reflect (portPair x ∈ seen)); [by apply IH |].
      rewrite fmap_cons.
      destruct (IH (portPair x :: seen) p Hp) as [Hs | Hk].
      * apply elem_of_cons in Hs as [-> | Hs]; [right; left | by left].
      * right; by right.
Qed.

(** C9: the displayed bindings are the input bindings with every binding
    dropped whose (public port, private port) pair occurred earlier: the
    first occurrence of each pair stays, in input order, each pair is
    shown once, and no pair of the input is lost.  Two bindings
    {public: 8080, private: 80} display as one entry. *)
Theorem displayedPorts_first_occurrence (ports : list Port) :
  displayedPorts ports = keepFirst [] ports
  /\ displayedPorts ports `sublist_of` ports
  /\ NoDup (portPair <$> displayedPorts ports)
  /\ (forall p, p ∈ ports -> portPair p ∈ portPair <$> displayedPorts ports)
  /\ (forall t1 t2,
        displayedPorts [mkPort 80 (Some 8080) t1; mkPort 80 (Some 8080) t2]
        = [mkPort 80 (Some 8080) t1]).
Proof.
  assert (Heq : forall l, displayedPorts l = keepFirst [] l).
  { intros l. unfold displayedPorts, JS.filterIndexed.
    apply (filterFrom_keepFirst l [] []). intros k. reflexivity. }
  split; [apply Heq |]. rewrite Heq. split; [apply keepFirst_sublist |].
  split; [apply keepFirst_NoDup |]. split.
  - intros p Hp. destruct (keepFirst_covers ports [] p Hp) as [Hin | Hin].
    + inversion Hin.
    + exact Hin.
  - intros t1 t2. rewrite Heq. reflexivity.
Qed.

(** ** Sorting *)

Section SortByKey.
Context {A : Type} (compareFn : A -> A -> option Z) (key : A -> Z).
Hypothesis compareFn_key : forall a b, compareFn a b = Some (key a - key b).

Lemma insertSorted_by_key x sorted :
  exists out,
    insertSorted compareFn x sorted = Some out
    /\ Permutation (x :: sorted) out
    /\ (StronglySorted (orderedBy key) sorted -> StronglySorted (orderedBy key) out).
Proof.
  induction sorted as [| y rest (out & Hout & Hperm & Hsorted)]; simpl.
  - exists [x]. split; [reflexivity |]. split; [reflexivity |].
    intros _. repeat constructor.
  - rewrite compareFn_key. simpl.
    destruct (Z.leb_spec (key x - key y) 0) as [Hle | Hgt].
    + exists (x :: y :: rest). split; [reflexivity |].
      split; [reflexivity |]. intros Hs. constructor; [exact Hs |].
      inversion Hs as [| ? ? Hrest Hall]; subst.
      constructor; [unfold orderedBy; lia |].
      eapply Forall_impl; [exact Hall |].
      unfold orderedBy. intros z Hz. lia.
    + rewrite Hout. simpl. exists (y :: out). split; [reflexivity |].
      split.
      * rewrite perm_swap. constructor. exact Hperm.
      * intros Hs. inversion Hs as [| ? ? Hrest Hall]; subst.
        constructor; [apply Hsorted, Hrest |].
        eapply Permutation_Forall; [exact Hperm |].
        constructor; [unfold orderedBy; lia | exact Hall].
Qed.

Lemma sort_by_key arr :
  exists out,
    sort compareFn arr = Some out
    /\ Permutation arr out
    /\ StronglySorted (orderedBy key) out.
Proof.
  induction arr as [| x arr (mid & Hmid & Hperm & Hsorted)]; simpl.
  - exists []. repeat split; constructor.
  - rewrite Hmid. simpl.
    destruct (insertSorted_by_key x mid) as (out & Hout & Hp & Hs).
    exists out. split; [exact Hout |]. split.
    + rewrite <- Hp. constructor. exact Hperm.
    + apply Hs, Hsorted.
Qed.
End SortByKey.

Lemma StronglySorted_weaken {A} (R S : A -> A -> Prop) (l : list A) :
  (forall a b, R a b -> S a b) -> StronglySorted R l -> StronglySorted S l.
Proof.
  intros HRS Hl. induction Hl as [| a l Hl IH Hall]; constructor.
  - exact IH.
  - eapply Forall_impl; [exact Hall |]. intros b. apply HRS.
Qed.

Section FilterSortFacts.
Variable localeCompare : string -> string -> Z.

Lemma displayList_filterSortEffect st term option :
  forall out,
    sort (compareContainers localeCompare option) (filteredList st term)
    = Some out ->
    exists st',
      filterSortEffect localeCompare st term option = Some st'
      /\ displayList st' = out.
Proof.
  intros out. unfold filterSortEffect, filteredList.
  destruct (filterStep st term) as [h filtered]. intros ->. simpl.
  eexists. split; [reflexivity |].
  unfold displayList, deref. simpl. apply lookup_total_insert_eq.
Qed.

Lemma compare_created_asc a b :
  compareContainers localeCompare "created-asc" a b
  = Some (- Created a - - Created b).
Proof. unfold compareContainers. simpl. f_equal. lia. Qed.

Lemma compare_created_desc a b :
  compareContainers localeCompare "created-desc" a b
  = Some (Created a - Created b).
Proof. reflexivity. Qed.

(** C3: with the created-ascending option the display list is the
    filtered list ordered newest first (creation time descending), and
    with the created-descending option it is ordered oldest first
    (creation time ascending). *)
Theorem created_sort_orders (st : ListState) (searchTerm : string) :
  (exists st',
     filterSortEffect localeCompare st searchTerm "created-asc" = Some st'
     /\ Permutation (filteredList st searchTerm) (displayList st')
     /\ StronglySorted (fun a b => Created a >= Created b) (displayList st'))
  /\
  (exists st',
     filterSortEffect localeCompare st searchTerm "created-desc" = Some st'
     /\ Permutation (filteredList st searchTerm) (displayList st')
     /\ StronglySorted (fun a b => Created a <= Created b) (displayList st')).
Proof.
  split.
  - destruct (sort_by_key (compareContainers localeCompare "created-asc")
                (fun c => - Created c) compare_created_asc
                (filteredList st searchTerm)) as (out & Hout & Hperm & Hs).
    destruct (displayList_filterSortEffect st searchTerm _ out Hout)
      as (st' & Heff & Hdisp).
    exists st'. rewrite Hdisp. split; [exact Heff |].
    split; [exact Hperm |].
    eapply StronglySorted_weaken; [| exact Hs].
    unfold orderedBy. intros a b Hab. lia.
  - destruct (sort_by_key (compareContainers localeCompare "created-desc")
                Created compare_created_desc
                (filteredList st searchTerm)) as (out & Hout & Hperm & Hs).
    destruct (displayList_filterSortEffect st searchTerm _ out Hout)
      as (st' & Heff & Hdisp).
    exists st'. rewrite Hdisp. split; [exact Heff |].
    split; [exact Hperm | exact Hs].
Qed.
End FilterSortFacts.

(** ** Strings *)

Lemma startsWith_iff t : forall s,
  JS.startsWith s t = true <-> exists post, s = (t ++ post)%string.
Proof.
  induction t as [| b t IH]; intros s.
  - split; [intros _; exists s; reflexivity |].
    intros _. destruct s; reflexivity.
  - destruct s as [| a s]; simpl.
    + split; [discriminate | intros (post & Hpost); discriminate].
    + rewrite andb_true_iff, IH. split.
      * intros [Hab (post & ->)]. apply Ascii.eqb_eq in Hab as ->.
        exists post. reflexivity.
      * intros (post & [= -> ->]). split; [apply Ascii.eqb_refl |].
        exists post. reflexivity.
Qed.

Lemma includes_unfold s t :
  JS.includes s t
  = JS.startsWith s t
    || match s with
       | EmptyString => false
       | String _ s' => JS.includes s' t
       end.
Proof. destruct s; reflexivity. Qed.

Lemma includes_iff t s :
  JS.includes s t = true
  <-> exists pre post, s = (pre ++ t ++ post)%string.
Proof.
  induction s as [| a s IH];
    rewrite includes_unfold, orb_true_iff, startsWith_iff.
  - split.
    + intros [(post & Hpost) | ?]; [| discriminate].
      exists "", post. exact Hpost.
    + intros (pre & post & Hs). left.
      destruct pre; [| discriminate]. exists post. exact Hs.
  - rewrite IH. split.
    + intros [(post & Hpost) | (pre & post & ->)].
      * exists "", post. exact Hpost.
      * exists (String a pre), post. reflexivity.
    + intros (pre & post & Hs). destruct pre as [| c pre].
      * left. exists post. exact Hs.
      * right. injection Hs as -> ->. exists pre, post. reflexivity.
Qed.

Lemma toLowerCase_app a b :
  JS.toLowerCase (a ++ b) = (JS.toLowerCase a ++ JS.toLowerCase b)%string.
Proof. induction a as [| c a IH]; simpl; [| rewrite IH]; reflexivity. Qed.

Lemma toLowerCase_split a' : forall s b',
  JS.toLowerCase s = (a' ++ b')%string ->
  exists a b, s = (a ++ b)%string
              /\ JS.toLowerCase a = a' /\ JS.toLowerCase b = b'.
Proof.
  induction a' as [| c a' IH]; intros s b' Hs.
  - exists "", s. auto.
  - destruct s as [| d s]; [discriminate |]. simpl in Hs.
    injection Hs as Hd Hs. destruct (IH s b' Hs) as (a & b & -> & Ha & Hb).
    exists (String d a), b. simpl. rewrite Hd, Ha. auto.
Qed.

Lemma includes_toLowerCase_iff term name :
  JS.includes (JS.toLowerCase name) (JS.toLowerCase term) = true
  <-> occursIgnoringCase term name.
Proof.
  rewrite includes_iff. unfold occursIgnoringCase. split.
  - intros (pre & post & Hn).
    apply toLowerCase_split in Hn as (before & rest & -> & _ & Hrest).
    apply toLowerCase_split in Hrest as (mid & after & -> & Hmid & _).
    exists before, mid, after. auto.
  - intros (before & mid & after & -> & Hmid).
    exists (JS.toLowerCase before), (JS.toLowerCase after).
    rewrite !toLowerCase_app, Hmid. reflexivity.
Qed.

Lemma matchesSearch_iff term c :
  matchesSearch term c = true <-> hasMatchingName term c.
Proof.
  unfold matchesSearch, hasMatchingName. rewrite existsb_exists.
  split; intros (name & Hin & Hname); exists name.
  - split; [apply list_elem_of_In, Hin |].
    apply includes_toLowerCase_iff, Hname.
  - split; [apply list_elem_of_In, Hin |].
    apply includes_toLowerCase_iff, Hname.
Qed.

Lemma trimStart_empty_iff s :
  JS.trimStart s = "" <-> allWhiteSpace s = true.
Proof.
  induction s as [| c s IH]; simpl; [tauto |].
  destruct (JS.isWhiteSpace c); simpl; [exact IH |].
  split; discriminate.
Qed.

Lemma allWhiteSpace_trimStart s :
  allWhiteSpace (JS.trimStart s) = allWhiteSpace s.
Proof.
  induction s as [| c s IH]; simpl; [reflexivity |].
  destruct (JS.isWhiteSpace c) eqn:Hc; simpl; [exact IH |].
  rewrite Hc. reflexivity.
Qed.

Lemma allWhiteSpace_rev_app s1 : forall s2,
  allWhiteSpace (String.rev_app s1 s2) = allWhiteSpace s1 && allWhiteSpace s2.
Proof.
  induction s1 as [| c s1 IH]; intros s2; simpl; [reflexivity |].
  rewrite IH. simpl. destruct (JS.isWhiteSpace c), (allWhiteSpace s1); reflexivity.
Qed.

Lemma rev_app_empty s1 : forall s2,
  String.rev_app s1 s2 = "" <-> s1 = "" /\ s2 = "".
Proof.
  induction s1 as [| c s1 IH]; intros s2; simpl.
  - tauto.
  - rewrite IH. split; [intros [_ ?]; discriminate | intros [? _]; discriminate].
Qed.

Lemma trim_empty_iff s : JS.trim s = "" <-> allWhiteSpace s = true.
Proof.
  unfold JS.trim, JS.trimEnd, String.rev.
  rewrite rev_app_empty, trimStart_empty_iff, allWhiteSpace_rev_app.
  rewrite allWhiteSpace_trimStart, andb_true_r. tauto.
Qed.

(** ** Filter step *)

Lemma List_filter_sublist {A} (f : A -> bool) (l : list A) :
  List.filter f l `sublist_of` l.
Proof.
  induction l as [| x l IH]; simpl; [constructor |].
  destruct (f x); [apply sublist_skip | apply sublist_cons]; exact IH.
Qed.

Lemma filteredList_cases st term :
  filteredList st term
  = if allWhiteSpace term then rawList st
    else List.filter (matchesSearch term) (rawList st).
Proof.
  unfold filteredList, filterStep.
  destruct (allWhiteSpace term) eqn:Hws.
  - apply trim_empty_iff in Hws. rewrite Hws. reflexivity.
  - destruct (String.eqb_spec (JS.trim term) "") as [Ht | _].
    + apply trim_empty_iff in Ht. congruence.
    + simpl. unfold deref. apply lookup_total_insert_eq.
Qed.

(** C5 as amended: when the search term is empty or all white space the
    filtered list is the whole input list; otherwise it is the input list
    restricted, in input order, to the containers with at least one name
    in which the term (as typed, not trimmed) occurs up to the case of
    letters.  In both cases it is a sublist of the input. *)
Theorem filteredList_matching_names (st : ListState) (term : string) :
  (forall c, matchesSearch term c = true <-> hasMatchingName term c)
  /\ filteredList st term
     = (if allWhiteSpace term then rawList st
        else List.filter (matchesSearch term) (rawList st))
  /\ filteredList st term `sublist_of` rawList st
  /\ filteredList st "" = rawList st.
Proof.
  split; [intros c; apply matchesSearch_iff |].
  split; [apply filteredList_cases |]. split.
  - rewrite filteredList_cases. destruct (allWhiteSpace term).
    + reflexivity.
    + apply List_filter_sublist.
  - apply filteredList_cases.
Qed.

(** C5, counterexample to the statement without the white-space case:
    for a search term of one space the container named "/web" stays in
    the filtered list although no space occurs in its name. *)
Lemma filteredList_blank_term_keeps_all :
  let web := mkContainer "1" ["/web"] "nginx" "running" 100 [] in
  let st := fetchContainers (Resolved [web]) initialListState in
  ~ (forall c, c ∈ filteredList st " "
               <-> c ∈ rawList st /\ hasMatchingName " " c).
Proof.
  intros web st Hall.
  assert (Hin : web ∈ filteredList st " ").
  { replace (filteredList st " ") with [web] by (vm_compute; reflexivity).
    left. }
  apply Hall in Hin as [_ Hname].
  apply matchesSearch_iff in Hname. discriminate Hname.
Qed.

(** ** Aliasing of the raw list *)

(** When a filter is applied, [filtered] is a new array and sorting it
    leaves the raw list alone. *)
Lemma filterSortEffect_filtering_keeps_raw localeCompare st term option st' :
  JS.trim term <> "" ->
  is_Some (heap st !! containers st) ->
  filterSortEffect localeCompare st term option = Some st' ->
  rawList st' = rawList st.
Proof.
  intros Ht Hdom. unfold filterSortEffect, filterStep.
  destruct (String.eqb_spec (JS.trim term) "") as [? | _]; [done |].
  simpl. destruct (sort _ _) as [sorted |]; [| discriminate].
  intros [= <-]. unfold rawList, deref. simpl.
  assert (Hne : fresh (dom (heap st)) <> containers st).
  { intros Heq. apply elem_of_dom in Hdom. rewrite <- Heq in Hdom.
    by apply is_fresh in Hdom. }
  rewrite !lookup_total_insert_ne by exact Hne. reflexivity.
Qed.

(** C4: with an empty search term [filtered] is the raw array itself, so
    the in-place sort reorders the raw container list.  Two containers
    fetched oldest first come out newest first under created-asc. *)
Theorem filterSortEffect_sorts_raw_in_place
    (localeCompare : string -> string -> Z) :
  let older := mkContainer "1" ["/a"] "nginx" "running" 100 [] in
  let newer := mkContainer "2" ["/b"] "nginx" "running" 200 [] in
  let st := fetchContainers (Resolved [older; newer]) initialListState in
  rawList st = [older; newer]
  /\ exists st',
       filterSortEffect localeCompare st "" "created-asc" = Some st'
       /\ rawList st' = [newer; older]
       /\ containers st' = filteredContainers st'.
Proof.
  intros older newer st. split; [reflexivity |].
  eexists. split; [vm_compute; reflexivity |].
  split; reflexivity.
Qed.

(** * Further properties *)

(** ** Decimal numerals and [parseInt] *)

Lemma digitValue_pretty_N_char (d : N) :
  (d < 10)%N -> JS.digitValue (pretty_N_char d) = Some (Z.of_N d).
Proof.
  intros Hd.
  assert (Hcases : (d = 0 \/ d = 1 \/ d = 2 \/ d = 3 \/ d = 4 \/ d = 5
                    \/ d = 6 \/ d = 7 \/ d = 8 \/ d = 9)%N) by lia.
  repeat destruct Hcases as [-> | Hcases]; try reflexivity.
  subst d. reflexivity.
Qed.

Lemma parseDigits_pretty_N_go (x : N) : forall s,
  (0 < x)%N ->
  JS.parseDigits (pretty_N_go x s) None = JS.parseDigits s (Some (Z.of_N x)).
Proof.
  induction (N.lt_wf_0 x) as [x _ IH]. intros s Hx.
  rewrite pretty_N_go_step by exact Hx.
  assert (Hmod : (x `mod` 10 < 10)%N) by (apply N.mod_lt; lia).
  pose proof (N.div_mod x 10 ltac:(lia)) as Hdm.
  destruct (N.eq_dec (x `div` 10)%N 0%N) as [Hz | Hnz].
  - rewrite Hz, pretty_N_go_0. simpl.
    rewrite digitValue_pretty_N_char by exact Hmod. simpl.
    do 2 f_equal. lia.
  - rewrite IH; [| apply N.div_lt; lia | apply N.neq_0_lt_0, Hnz]. simpl.
    rewrite digitValue_pretty_N_char by exact Hmod. simpl.
    do 2 f_equal. lia.
Qed.

Lemma pretty_N_go_head (x : N) : forall s,
  (0 < x)%N ->
  exists d rest, (d < 10)%N /\ pretty_N_go x s = String (pretty_N_char d) rest.
Proof.
  induction (N.lt_wf_0 x) as [x _ IH]. intros s Hx.
  rewrite pretty_N_go_step by exact Hx.
  destruct (N.eq_dec (x `div` 10)%N 0%N) as [Hz | Hnz].
  - rewrite Hz, pretty_N_go_0. exists (x `mod` 10)%N, s.
    split; [apply N.mod_lt; lia | reflexivity].
  - apply IH; [apply N.div_lt; lia | apply N.neq_0_lt_0, Hnz].
Qed.

Lemma parseInt_digit_first (d : N) (rest : string) :
  (d < 10)%N ->
  JS.parseInt (String (pretty_N_char d) rest)
  = match JS.parseDigits (String (pretty_N_char d) rest) None with
    | Some n => Some (1 * n)
    | None => None
    end.
Proof.
  intros Hd.
  assert (Hcases : (d = 0 \/ d = 1 \/ d = 2 \/ d = 3 \/ d = 4 \/ d = 5
                    \/ d = 6 \/ d = 7 \/ d = 8 \/ d = 9)%N) by lia.
  repeat destruct Hcases as [-> | Hcases]; try reflexivity.
  subst d. reflexivity.
Qed.

Lemma parseInt_pretty_N_go (x : N) :
  (0 < x)%N -> JS.parseInt (pretty_N_go x "") = Some (Z.of_N x).
Proof.
  intros Hx. destruct (pretty_N_go_head x "" Hx) as (d & rest & Hd & Hhead).
  pose proof (parseDigits_pretty_N_go x "" Hx) as Hdigits.
  rewrite Hhead in *. rewrite parseInt_digit_first by exact Hd.
  rewrite Hdigits. simpl. f_equal. lia.
Qed.

Lemma parseInt_minus (s : string) :
  JS.parseInt (String "-" s)
  = match JS.parseDigits s None with
    | Some n => Some (- 1 * n)
    | None => None
    end.
Proof. reflexivity. Qed.

Lemma pretty_N_positive (x : N) :
  (0 < x)%N -> pretty x = pretty_N_go x "".
Proof.
  intros Hx. unfold pretty, pretty_N.
  destruct (decide (x = 0%N)); [lia | reflexivity].
Qed.

(** Printing an integer and parsing the numeral gives the integer back. *)
Lemma parseInt_pretty (v : Z) : JS.parseInt (pretty v) = Some v.
Proof.
  destruct v as [| p | p].
  - reflexivity.
  - change (pretty (Z.pos p)) with (pretty (N.pos p)).
    rewrite pretty_N_positive by lia.
    rewrite parseInt_pretty_N_go by lia. reflexivity.
  - change (pretty (Z.neg p)) with (String "-" (pretty (N.pos p))).
    rewrite parseInt_minus, pretty_N_positive by lia.
    rewrite (parseDigits_pretty_N_go (N.pos p) "") by lia.
    reflexivity.
Qed.

(** ** Preference handlers *)

Lemma getStoredPortOrDefault_written ls key d v :
  1 <= v <= 65535 ->
  getStoredPortOrDefault (<[key := pretty v]> ls) key d = v.
Proof.
  intros Hv. apply getStoredPortOrDefault_parsed.
  exists (pretty v). rewrite lookup_insert_eq.
  split; [reflexivity |]. split; [apply parseInt_pretty | exact Hv].
Qed.

Lemma getStoredPortOrDefault_other ls key key' d s :
  key' <> key ->
  getStoredPortOrDefault (<[key' := s]> ls) key d
  = getStoredPortOrDefault ls key d.
Proof.
  intros Hne. unfold getStoredPortOrDefault.
  rewrite lookup_insert_ne by exact Hne. reflexivity.
Qed.

Lemma getItemOr_written ls key fallback s :
  getItemOr (<[key := s]> ls) key fallback
  = if String.eqb s "" then fallback else s.
Proof. unfold getItemOr. rewrite lookup_insert_eq. reflexivity. Qed.

Lemma getItemOr_other ls key key' fallback s :
  key' <> key ->
  getItemOr (<[key' := s]> ls) key fallback = getItemOr ls key fallback.
Proof.
  intros Hne. unfold getItemOr. rewrite lookup_insert_ne by exact Hne.
  reflexivity.
Qed.

Lemma getItemOr_truthy ls key fallback :
  fallback <> "" -> getItemOr ls key fallback <> "".
Proof.
  intros Hf. unfold getItemOr. destruct (ls !! key) as [s |]; [| exact Hf].
  destruct (String.eqb_spec s ""); assumption.
Qed.

Lemma prefRun_snoc storage edits edit :
  prefRun storage (edits ++ [edit])%list
  = prefStep (prefRun storage edits) edit.
Proof. unfold prefRun. rewrite foldl_app. reflexivity. Qed.

Ltac port_edit_cases input :=
  destruct (JS.parseInt input) as [value |]; [| assumption];
  destruct (Z.leb_spec 1 value); [| assumption];
  destruct (Z.leb_spec value 65535); [| assumption]; simpl.

Lemma prefStep_ports_reload st edit :
  initialMinPort (localStorage st) = minPort st ->
  initialMaxPort (localStorage st) = maxPort st ->
  initialMinPort (localStorage (prefStep st edit)) = minPort (prefStep st edit)
  /\ initialMaxPort (localStorage (prefStep st edit))
     = maxPort (prefStep st edit).
Proof.
  intros Hmin Hmax. unfold initialMinPort, initialMaxPort in *.
  destruct edit as [value | value | input | input]; simpl prefStep.
  - simpl. rewrite !getStoredPortOrDefault_other by discriminate. auto.
  - simpl. rewrite !getStoredPortOrDefault_other by discriminate. auto.
  - unfold handleMinPortChange. split.
    + port_edit_cases input. apply getStoredPortOrDefault_written. lia.
    + port_edit_cases input.
      rewrite getStoredPortOrDefault_other by discriminate. exact Hmax.
  - unfold handleMaxPortChange. split.
    + port_edit_cases input.
      rewrite getStoredPortOrDefault_other by discriminate. exact Hmin.
    + port_edit_cases input. apply getStoredPortOrDefault_written. lia.
Qed.

(** X1: whatever the storage held at start-up and whatever edits
    followed, loading the port range from the storage as it now is gives
    the min and max port of the live state: every accepted edit is
    written in a form that reads back as the same number, and rejected
    edits write nothing. *)
Theorem port_range_survives_reload
    (storage : gmap string string) (edits : list PrefEdit) :
  initialMinPort (localStorage (prefRun storage edits))
  = minPort (prefRun storage edits)
  /\ initialMaxPort (localStorage (prefRun storage edits))
     = maxPort (prefRun storage edits).
Proof.
  induction edits as [| edit edits [Hmin Hmax]] using rev_ind.
  - split; reflexivity.
  - rewrite prefRun_snoc. apply prefStep_ports_reload; assumption.
Qed.

Lemma prefStep_text_reload st edit :
  initialHostname (localStorage st)
  = (if String.eqb (hostname st) "" then "localhost" else hostname st) ->
  initialSortOption (localStorage st)
  = (if String.eqb (sortOption st) "" then "name-asc" else sortOption st) ->
  initialHostname (localStorage (prefStep st edit))
  = (if String.eqb (hostname (prefStep st edit)) "" then "localhost"
     else hostname (prefStep st edit))
  /\ initialSortOption (localStorage (prefStep st edit))
     = (if String.eqb (sortOption (prefStep st edit)) "" then "name-asc"
        else sortOption (prefStep st edit)).
Proof.
  intros Hhost Hsort. unfold initialHostname, initialSortOption in *.
  destruct edit as [value | value | input | input]; simpl prefStep.
  - simpl. rewrite getItemOr_written, getItemOr_other by discriminate. auto.
  - simpl. rewrite getItemOr_written, getItemOr_other by discriminate. auto.
  - unfold handleMinPortChange. split.
    + port_edit_cases input. rewrite getItemOr_other by discriminate.
      exact Hhost.
    + port_edit_cases input. rewrite getItemOr_other by discriminate.
      exact Hsort.
  - unfold handleMaxPortChange. split.
    + port_edit_cases input. rewrite getItemOr_other by discriminate.
      exact Hhost.
    + port_edit_cases input. rewrite getItemOr_other by discriminate.
      exact Hsort.
Qed.

Lemma truthy_self (s fallback : string) :
  s <> "" -> s = (if String.eqb s "" then fallback else s).
Proof. intros Hs. destruct (String.eqb_spec s ""); [contradiction | reflexivity]. Qed.

(** X2: after any edits, loading the hostname and the sort option from
    the storage gives the live values, except that an emptied field comes
    back as its default, "localhost" or "name-asc". *)
Theorem text_prefs_survive_reload
    (storage : gmap string string) (edits : list PrefEdit) :
  initialHostname (localStorage (prefRun storage edits))
  = (if String.eqb (hostname (prefRun storage edits)) "" then "localhost"
     else hostname (prefRun storage edits))
  /\ initialSortOption (localStorage (prefRun storage edits))
     = (if String.eqb (sortOption (prefRun storage edits)) "" then "name-asc"
        else sortOption (prefRun storage edits)).
Proof.
  induction edits as [| edit edits [Hhost Hsort]] using rev_ind.
  - split; apply truthy_self, getItemOr_truthy; discriminate.
  - rewrite prefRun_snoc. apply prefStep_text_reload; assumption.
Qed.

Lemma prefStep_ports_valid st edit :
  1 <= minPort st <= 65535 -> 1 <= maxPort st <= 65535 ->
  1 <= minPort (prefStep st edit) <= 65535
  /\ 1 <= maxPort (prefStep st edit) <= 65535.
Proof.
  intros Hmin Hmax.
  destruct edit as [value | value | input | input]; simpl prefStep.
  - auto.
  - auto.
  - unfold handleMinPortChange.
    destruct (JS.parseInt input) as [value |]; [| auto].
    destruct (Z.leb_spec 1 value); [| auto].
    destruct (Z.leb_spec value 65535); simpl; auto.
  - unfold handleMaxPortChange.
    destruct (JS.parseInt input) as [value |]; [| auto].
    destruct (Z.leb_spec 1 value); [| auto].
    destruct (Z.leb_spec value 65535); simpl; auto.
Qed.

(** X3: whatever the storage held and whatever was typed into the port
    fields, the min and max port of the state are integers of
    [[1, 65535]], so the clamping of the port calculator never changes
    them. *)
Theorem port_range_always_valid
    (storage : gmap string string) (edits : list PrefEdit) :
  1 <= minPort (prefRun storage edits) <= 65535
  /\ 1 <= maxPort (prefRun storage edits) <= 65535
  /\ clamp (minPort (prefRun storage edits)) = minPort (prefRun storage edits)
  /\ clamp (maxPort (prefRun storage edits)) = maxPort (prefRun storage edits).
Proof.
  assert (Hvalid : 1 <= minPort (prefRun storage edits) <= 65535
                   /\ 1 <= maxPort (prefRun storage edits) <= 65535).
  { induction edits as [| edit edits [Hmin Hmax]] using rev_ind.
    - split; apply getStoredPortOrDefault_range; lia.
    - rewrite prefRun_snoc. apply prefStep_ports_valid; assumption. }
  destruct Hvalid as [Hmin Hmax]. split; [exact Hmin |].
  split; [exact Hmax |]. unfold clamp.
  split.
  - destruct (Z.ltb_spec (minPort (prefRun storage edits)) 1); [lia |].
    destruct (Z.ltb_spec 65535 (minPort (prefRun storage edits))); lia.
  - destruct (Z.ltb_spec (maxPort (prefRun storage edits)) 1); [lia |].
    destruct (Z.ltb_spec 65535 (maxPort (prefRun storage edits))); lia.
Qed.

(** ** Port availability calculator, continued *)

Lemma nextAvailablePort_unfold cs a b :
  nextAvailablePort cs a b
  = scanPorts
      (collectUsedPorts cs (Z.min (clamp a) (clamp b)) (Z.max (clamp a) (clamp b)))
      (Z.min (clamp a) (clamp b))
      (Z.to_nat (Z.max (clamp a) (clamp b) - Z.min (clamp a) (clamp b) + 1)).
Proof. unfold nextAvailablePort. rewrite !clamp_max_min. reflexivity. Qed.

Lemma nextAvailablePort_used cs a b :
  match nextAvailablePort cs a b with
  | Some p =>
      Z.min (clamp a) (clamp b) <= p <= Z.max (clamp a) (clamp b)
      /\ ~ occupied cs (Z.min (clamp a) (clamp b)) (Z.max (clamp a) (clamp b)) p
      /\ forall q, Z.min (clamp a) (clamp b) <= q < p ->
           occupied cs (Z.min (clamp a) (clamp b)) (Z.max (clamp a) (clamp b)) q
  | None =>
      forall q, Z.min (clamp a) (clamp b) <= q <= Z.max (clamp a) (clamp b) ->
        occupied cs (Z.min (clamp a) (clamp b)) (Z.max (clamp a) (clamp b)) q
  end.
Proof.
  rewrite nextAvailablePort_unfold.
  pose proof (clamp_range a) as Ha. pose proof (clamp_range b) as Hb.
  set (lo := Z.min (clamp a) (clamp b)) in *.
  set (hi := Z.max (clamp a) (clamp b)) in *.
  assert (Hlo : 1 <= lo <= hi) by (unfold lo, hi; lia).
  pose proof (scanPorts_spec (collectUsedPorts cs lo hi)
                (Z.to_nat (hi - lo + 1)) lo) as Hscan.
  destruct (scanPorts _ lo _) as [p |].
  - destruct Hscan as (Hr & Hfree & Hbelow). split; [lia |]. split.
    + intros Hocc. apply Hfree, elem_of_collectUsedPorts.
      split; [lia | exact Hocc].
    + intros q Hq. apply Hbelow, elem_of_collectUsedPorts in Hq. tauto.
  - intros q Hq.
    assert (Hin : q ∈ collectUsedPorts cs lo hi) by (apply Hscan; lia).
    apply elem_of_collectUsedPorts in Hin. tauto.
Qed.

(** X4: the two ends of the range may be given in either order. *)
Theorem nextAvailablePort_symmetric (cs : list DockerContainer) (a b : Z) :
  nextAvailablePort cs a b = nextAvailablePort cs b a.
Proof.
  rewrite !nextAvailablePort_unfold.
  rewrite (Z.min_comm (clamp b)), (Z.max_comm (clamp b)). reflexivity.
Qed.

Lemma occupied_subset cs cs' lo hi q :
  (forall c, c ∈ cs -> c ∈ cs') -> occupied cs lo hi q -> occupied cs' lo hi q.
Proof.
  intros Hsub (Hq & c & port & Hc & Hport & Hpub).
  split; [exact Hq |]. exists c, port. auto.
Qed.

Lemma nextAvailablePort_same_members cs cs' a b :
  (forall c, c ∈ cs <-> c ∈ cs') ->
  nextAvailablePort cs a b = nextAvailablePort cs' a b.
Proof.
  intros Hsame. rewrite !nextAvailablePort_unfold. f_equal.
  apply set_eq. intros q. rewrite !elem_of_collectUsedPorts.
  split; intros [Hq Hocc]; (split; [exact Hq |]);
    eapply occupied_subset; try exact Hocc; intros c; apply Hsame.
Qed.

(** X5: the result depends only on which containers are in the list, not
    on their order or on repetitions; in particular sorting the list does
    not change it. *)
Theorem nextAvailablePort_order_independent
    (cs cs' : list DockerContainer) (a b : Z) :
  (forall c, c ∈ cs <-> c ∈ cs') ->
  nextAvailablePort cs a b = nextAvailablePort cs' a b.
Proof. apply nextAvailablePort_same_members. Qed.

Lemma nextAvailablePort_order_independent_witness :
  let web := mkContainer "1" ["/web"] "nginx" "running" 100
               [mkPort 80 (Some 8080) "tcp"] in
  let db := mkContainer "2" ["/db"] "postgres" "running" 200
              [mkPort 5432 (Some 8081) "tcp"] in
  (forall c, c ∈ [web; db] <-> c ∈ [db; web; db])
  /\ nextAvailablePort [web; db] 8080 8090
     = nextAvailablePort [db; web; db] 8080 8090.
Proof.
  intros web db.
  assert (Hsame : forall c, c ∈ [web; db] <-> c ∈ [db; web; db]).
  { intros c. rewrite !elem_of_cons, !elem_of_nil. tauto. }
  split; [exact Hsame |].
  apply (nextAvailablePort_order_independent _ _ 8080 8090 Hsame).
Defined.

(** X6: when no container publishes the lower end of the range, the
    lower end is the answer; with no containers at all this is always
    so. *)
Theorem nextAvailablePort_lower_end_free (a b : Z) :
  nextAvailablePort [] a b = Some (Z.min (clamp a) (clamp b))
  /\ forall cs,
       ~ occupied cs (Z.min (clamp a) (clamp b)) (Z.max (clamp a) (clamp b))
           (Z.min (clamp a) (clamp b)) ->
       nextAvailablePort cs a b = Some (Z.min (clamp a) (clamp b)).
Proof.
  assert (Hgen : forall cs,
    ~ occupied cs (Z.min (clamp a) (clamp b)) (Z.max (clamp a) (clamp b))
        (Z.min (clamp a) (clamp b)) ->
    nextAvailablePort cs a b = Some (Z.min (clamp a) (clamp b))).
  { intros cs Hfree. pose proof (nextAvailablePort_used cs a b) as Hspec.
    pose proof (clamp_range a). pose proof (clamp_range b).
    destruct (nextAvailablePort cs a b) as [p |].
    - destruct Hspec as (Hr & _ & Hbelow). f_equal.
      destruct (Z.eq_dec p (Z.min (clamp a) (clamp b))) as [-> | Hne];
        [reflexivity |].
      exfalso. apply Hfree, Hbelow. lia.
    - exfalso. apply Hfree, Hspec. lia. }
  split; [| exact Hgen]. apply Hgen.
  intros (_ & c & _ & Hc & _). inversion Hc.
Qed.

(** X7: more containers never free a port: if the list grows, the next
    available port stays or moves up, and once no port is available none
    becomes available. *)
Theorem nextAvailablePort_monotone
    (cs cs' : list DockerContainer) (a b : Z) :
  (forall c, c ∈ cs -> c ∈ cs') ->
  match nextAvailablePort cs a b, nextAvailablePort cs' a b with
  | Some p, Some p' => p <= p'
  | None, Some _ => False
  | _, None => True
  end.
Proof.
  intros Hsub.
  pose proof (nextAvailablePort_used cs a b) as H1.
  pose proof (nextAvailablePort_used cs' a b) as H2.
  destruct (nextAvailablePort cs a b) as [p |],
           (nextAvailablePort cs' a b) as [p' |]; try exact I.
  - destruct H1 as (Hr & Hfree & Hbelow), H2 as (Hr' & Hfree' & _).
    destruct (Z.le_gt_cases p p') as [Hle | Hgt]; [exact Hle |].
    exfalso. apply Hfree'. eapply occupied_subset; [exact Hsub |].
    apply Hbelow. lia.
  - destruct H2 as (Hr' & Hfree' & _).
    apply Hfree'. eapply occupied_subset; [exact Hsub |]. apply H1. lia.
Qed.

Lemma nextAvailablePort_monotone_witness :
  let web := mkContainer "1" ["/web"] "nginx" "running" 100
               [mkPort 80 (Some 8080) "tcp"] in
  let db := mkContainer "2" ["/db"] "postgres" "running" 200
              [mkPort 5432 (Some 8081) "tcp"] in
  (forall c, c ∈ [web] -> c ∈ [web; db])
  /\ nextAvailablePort [web] 8080 8090 = Some 8081
  /\ nextAvailablePort [web; db] 8080 8090 = Some 8082
  /\ 8081 <= 8082.
Proof.
  intros web db.
  assert (Hsub : forall c, c ∈ [web] -> c ∈ [web; db]).
  { intros c. rewrite !elem_of_cons, !elem_of_nil. tauto. }
  split; [exact Hsub |].
  pose proof (nextAvailablePort_monotone [web] [web; db] 8080 8090 Hsub) as H.
  assert (H1 : nextAvailablePort [web] 8080 8090 = Some 8081)
    by (vm_compute; reflexivity).
  assert (H2 : nextAvailablePort [web; db] 8080 8090 = Some 8082)
    by (vm_compute; reflexivity).
  rewrite H1, H2 in H. auto.
Defined.

(** ** Embedded navigation controller, continued *)

Lemma index_in_range {A} (l : list A) (i : Z) :
  0 <= i < Z.of_nat (length l) -> JS.index l i = l !! Z.to_nat i.
Proof.
  intros Hi. unfold JS.index. destruct (Z.ltb_spec i 0); [lia | reflexivity].
Qed.

Lemma back_then_forward st :
  indexInBounds st -> urlAtIndex st -> 0 < historyIndex st ->
  currentUrl (handleForward (handleBack st)) = currentUrl st
  /\ iframeHistory (handleForward (handleBack st)) = iframeHistory st
  /\ historyIndex (handleForward (handleBack st)) = historyIndex st.
Proof.
  intros [Hlo Hhi] Hu Hpos. unfold handleBack.
  destruct (Z.ltb_spec 0 (historyIndex st)); [| lia].
  unfold handleForward. simpl.
  destruct (Z.ltb_spec (historyIndex st - 1)
              (Z.of_nat (length (iframeHistory st)) - 1)); [| lia].
  simpl. replace (historyIndex st - 1 + 1) with (historyIndex st) by lia.
  split; [symmetry; exact Hu | split; reflexivity].
Qed.

Lemma forward_then_back st :
  indexInBounds st -> urlAtIndex st ->
  historyIndex st < Z.of_nat (length (iframeHistory st)) - 1 ->
  0 <= historyIndex st ->
  currentUrl (handleBack (handleForward st)) = currentUrl st
  /\ iframeHistory (handleBack (handleForward st)) = iframeHistory st
  /\ historyIndex (handleBack (handleForward st)) = historyIndex st.
Proof.
  intros [Hlo Hhi] Hu Hlt Hpos. unfold handleForward.
  destruct (Z.ltb_spec (historyIndex st)
              (Z.of_nat (length (iframeHistory st)) - 1)); [| lia].
  unfold handleBack. simpl.
  destruct (Z.ltb_spec 0 (historyIndex st + 1)); [| lia].
  simpl. replace (historyIndex st + 1 - 1) with (historyIndex st) by lia.
  split; [symmetry; exact Hu | split; reflexivity].
Qed.

(** X8: from any state the controller can reach, Back followed by
    Forward (when there is an entry to go back to) and Forward followed
    by Back (when there is an entry ahead and one is shown) return to the
    same URL, history and index. *)
Theorem nav_back_forward_round_trip (ops : list NavOp) :
  (0 < historyIndex (navRun ops) ->
   currentUrl (handleForward (handleBack (navRun ops)))
   = currentUrl (navRun ops)
   /\ iframeHistory (handleForward (handleBack (navRun ops)))
      = iframeHistory (navRun ops)
   /\ historyIndex (handleForward (handleBack (navRun ops)))
      = historyIndex (navRun ops))
  /\ (0 <= historyIndex (navRun ops)
        < Z.of_nat (length (iframeHistory (navRun ops))) - 1 ->
      currentUrl (handleBack (handleForward (navRun ops)))
      = currentUrl (navRun ops)
      /\ iframeHistory (handleBack (handleForward (navRun ops)))
         = iframeHistory (navRun ops)
      /\ historyIndex (handleBack (handleForward (navRun ops)))
         = historyIndex (navRun ops)).
Proof.
  destruct (navRun_invariant ops) as [Hb Hu]. split.
  - intros Hpos. apply back_then_forward; assumption.
  - intros [Hpos Hlt]. apply forward_then_back; assumption.
Qed.

Lemma nav_back_forward_round_trip_witness :
  let ops := [Navigate "a"; Navigate "b"; Navigate "c"; Back] in
  0 < historyIndex (navRun ops)
  /\ currentUrl (handleForward (handleBack (navRun ops))) = Some "b"
  /\ 0 <= historyIndex (navRun ops)
       < Z.of_nat (length (iframeHistory (navRun ops))) - 1
  /\ currentUrl (handleBack (handleForward (navRun ops))) = Some "b".
Proof.
  intros ops.
  destruct (nav_back_forward_round_trip ops) as [Hbf Hfb].
  assert (H1 : 0 < historyIndex (navRun ops)) by (simpl; lia).
  assert (H2 : 0 <= historyIndex (navRun ops)
               < Z.of_nat (length (iframeHistory (navRun ops))) - 1)
    by (simpl; lia).
  split; [exact H1 |]. split; [exact (proj1 (Hbf H1)) |].
  split; [exact H2 | exact (proj1 (Hfb H2))].
Defined.

(** X9: right after a Navigate there is nothing ahead: the new URL is
    the last history entry, the Forward button is disabled and Forward
    changes nothing, whatever was ahead before. *)
Theorem navigate_discards_forward (ops : list NavOp) (u : string) :
  last (iframeHistory (navRun (ops ++ [Navigate u])%list)) = Some u
  /\ forwardDisabled (navRun (ops ++ [Navigate u])%list) = true
  /\ handleForward (navRun (ops ++ [Navigate u])%list)
     = navRun (ops ++ [Navigate u])%list.
Proof.
  rewrite navRun_snoc. destruct (navRun_invariant ops) as [Hb _].
  pose proof (handleLinkClick_length (navRun ops) u Hb) as Hlen.
  split; [simpl; apply last_snoc |].
  assert (Hdis : forwardDisabled (handleLinkClick u (navRun ops)) = true).
  { unfold forwardDisabled. apply Z.leb_le. rewrite Hlen. simpl. lia. }
  split; [exact Hdis |].
  unfold handleForward. unfold forwardDisabled in Hdis.
  apply Z.leb_le in Hdis.
  destruct (Z.ltb_spec (historyIndex (navStep (navRun ops) (Navigate u)))
              (Z.of_nat (length (iframeHistory
                 (navStep (navRun ops) (Navigate u)))) - 1)) as [Hlt | _];
    [| reflexivity].
  simpl in Hlt, Hdis. lia.
Qed.

Lemma navigatedUrls_snoc ops op :
  navigatedUrls (ops ++ [op])%list
  = (navigatedUrls ops
     ++ match op with Navigate url => [url] | _ => [] end)%list.
Proof.
  unfold navigatedUrls. rewrite omap_app. destruct op; reflexivity.
Qed.

(** X10: the history never holds anything but URLs that were navigated
    to, in the order of navigation: it is a subsequence of them. *)
Theorem nav_history_sublist_of_navigated (ops : list NavOp) :
  iframeHistory (navRun ops) `sublist_of` navigatedUrls ops.
Proof.
  induction ops as [| op ops IH] using rev_ind.
  - constructor.
  - rewrite navRun_snoc, navigatedUrls_snoc.
    destruct op as [u | | |]; simpl navStep.
    + simpl. apply sublist_app; [| reflexivity].
      etransitivity; [| exact IH]. unfold JS.slice0. apply sublist_take.
    + rewrite app_nil_r. unfold handleBack.
      destruct (0 <? historyIndex (navRun ops)); exact IH.
    + rewrite app_nil_r. unfold handleForward.
      destruct (historyIndex (navRun ops) <? _); exact IH.
    + rewrite app_nil_r. exact IH.
Qed.

Lemma NavState_key_changed (st st' : NavState) :
  iframeKey st' = iframeKey st + 1 -> st' <> st.
Proof. intros Hkey Heq. rewrite Heq in Hkey. lia. Qed.

(** X11: the Back and Forward buttons are disabled in exactly the states
    in which their handlers would change nothing. *)
Theorem nav_buttons_disabled_iff_noop (st : NavState) :
  (backDisabled st = true <-> handleBack st = st)
  /\ (forwardDisabled st = true <-> handleForward st = st).
Proof.
  split.
  - unfold backDisabled, handleBack. rewrite Z.leb_le.
    destruct (Z.ltb_spec 0 (historyIndex st)) as [Hlt | Hge].
    + split; [lia |]. intros Heq. exfalso.
      revert Heq. apply NavState_key_changed. reflexivity.
    + split; [reflexivity | lia].
  - unfold forwardDisabled, handleForward. rewrite Z.leb_le.
    destruct (Z.ltb_spec (historyIndex st)
                (Z.of_nat (length (iframeHistory st)) - 1)) as [Hlt | Hge].
    + split; [lia |]. intros Heq. exfalso.
      revert Heq. apply NavState_key_changed. reflexivity.
    + split; [reflexivity | lia].
Qed.

Lemma navStep_keepsHistory st op :
  keepsHistory op -> iframeHistory (navStep st op) = iframeHistory st.
Proof.
  destruct op as [u | | |]; simpl; intros Hop.
  - contradiction.
  - unfold handleBack. destruct (0 <? historyIndex st); reflexivity.
  - unfold handleForward. destruct (historyIndex st <? _); reflexivity.
  - reflexivity.
Qed.

(** X12: Back, Forward and Refresh, in any number and order, never add,
    drop or reorder history entries. *)
Theorem nav_history_kept_without_navigate (st : NavState) (ops : list NavOp) :
  Forall keepsHistory ops ->
  iframeHistory (foldl navStep st ops) = iframeHistory st.
Proof.
  revert st. induction ops as [| op ops IH]; intros st Hops.
  - reflexivity.
  - inversion Hops as [| ? ? Hop Hrest]; subst. simpl.
    rewrite IH by exact Hrest. apply navStep_keepsHistory, Hop.
Qed.

Lemma nav_history_kept_without_navigate_witness :
  let st := navRun [Navigate "a"; Navigate "b"] in
  Forall keepsHistory [Back; Back; Refresh; Forward; Forward; Forward]
  /\ iframeHistory
       (foldl navStep st [Back; Back; Refresh; Forward; Forward; Forward])
     = ["a"; "b"].
Proof.
  intros st.
  assert (Hops : Forall keepsHistory
                   [Back; Back; Refresh; Forward; Forward; Forward])
    by (repeat constructor).
  split; [exact Hops |].
  exact (nav_history_kept_without_navigate st _ Hops).
Defined.

(** ** Context menu *)

Lemma truthy_generateLink h p :
  truthy (Some (generateLink h p)) = Some (generateLink h p).
Proof. reflexivity. Qed.

(** X13: opening the menu on a port link and choosing "Open in iframe"
    does to the viewer what a click on the link does, and choosing "Open
    in new tab" hands the link to [window.open] and leaves the viewer and
    its history alone; either way the menu ends closed. *)
Theorem menu_choice_effects
    (st : ViewerState) (target : nat) (h : string) (p : Z) :
  let url := generateLink h p in
  let inFrame := handleOpenInIframe (handleMenuClick target url st) in
  let inTab := handleOpenInNewTab (handleMenuClick target url st) in
  nav inFrame = handleLinkClick url (nav st)
  /\ opened inFrame = opened st
  /\ nav inTab = nav st
  /\ opened inTab = (opened st ++ [url])%list
  /\ anchorEl inFrame = None /\ selectedUrl inFrame = None
  /\ anchorEl inTab = None /\ selectedUrl inTab = None.
Proof.
  intros url inFrame inTab. unfold inFrame, inTab, url.
  unfold handleOpenInIframe, handleOpenInNewTab, handleMenuClick.
  simpl selectedUrl. rewrite truthy_generateLink.
  repeat split.
Qed.

(** ** Sorting, continued *)

Section SortAny.
Context {A : Type} (compareFn : A -> A -> option Z).

Lemma insertSorted_Permutation x sorted : forall out,
  insertSorted compareFn x sorted = Some out -> Permutation (x :: sorted) out.
Proof.
  induction sorted as [| y rest IH]; intros out; simpl.
  - intros [= <-]. reflexivity.
  - destruct (compareFn x y) as [c |]; simpl; [| discriminate].
    destruct (c <=? 0).
    + intros [= <-]. reflexivity.
    + destruct (insertSorted compareFn x rest) as [out' |]; simpl;
        [| discriminate].
      intros [= <-]. rewrite perm_swap. constructor. apply IH. reflexivity.
Qed.

Lemma sort_Permutation arr : forall out,
  sort compareFn arr = Some out -> Permutation arr out.
Proof.
  induction arr as [| x arr IH]; intros out; simpl.
  - intros [= <-]. reflexivity.
  - destruct (sort compareFn arr) as [mid |]; simpl; [| discriminate].
    intros Hins. apply insertSorted_Permutation in Hins.
    rewrite <- Hins. constructor. apply IH. reflexivity.
Qed.

Lemma insertSorted_defined x sorted :
  (forall y, y ∈ sorted -> is_Some (compareFn x y)) ->
  is_Some (insertSorted compareFn x sorted).
Proof.
  induction sorted as [| y rest IH]; intros Hdef; simpl.
  - eexists; reflexivity.
  - destruct (Hdef y ltac:(left)) as [c ->]. simpl.
    destruct (c <=? 0); [eexists; reflexivity |].
    destruct IH as [out ->]; [| eexists; reflexivity].
    intros z Hz. apply Hdef. by right.
Qed.

Lemma sort_defined arr :
  (forall a b, a ∈ arr -> b ∈ arr -> is_Some (compareFn a b)) ->
  is_Some (sort compareFn arr).
Proof.
  induction arr as [| x arr IH]; intros Hdef; simpl.
  - eexists; reflexivity.
  - destruct IH as [mid Hmid].
    { intros a b Ha Hb. apply Hdef; by right. }
    rewrite Hmid. simpl. apply insertSorted_defined.
    intros y Hy. apply Hdef; [left |].
    right. apply sort_Permutation in Hmid.
    rewrite Hmid. exact Hy.
Qed.
End SortAny.

Section SortByKeyMore.
Context {A : Type} (compareFn : A -> A -> option Z) (key : A -> Z).
Hypothesis compareFn_key : forall a b, compareFn a b = Some (key a - key b).

Lemma insertSorted_same_key k x sorted : forall out,
  insertSorted compareFn x sorted = Some out ->
  List.filter (fun a => key a =? k) out
  = List.filter (fun a => key a =? k) (x :: sorted).
Proof.
  induction sorted as [| y rest IH]; intros out; simpl insertSorted.
  - intros [= <-]. reflexivity.
  - rewrite compareFn_key. simpl.
    destruct (Z.leb_spec (key x - key y) 0) as [Hle | Hgt].
    + intros [= <-]. reflexivity.
    + destruct (insertSorted compareFn x rest) as [out' |]; simpl;
        [| discriminate].
      intros [= <-]. specialize (IH out' eq_refl). simpl in *.
      destruct (Z.eqb_spec (key y) k) as [Hy | Hy].
      * destruct (Z.eqb_spec (key x) k) as [Hx | Hx]; [lia |].
        rewrite IH. reflexivity.
      * exact IH.
Qed.

Lemma sort_same_key k arr : forall out,
  sort compareFn arr = Some out ->
  List.filter (fun a => key a =? k) out
  = List.filter (fun a => key a =? k) arr.
Proof.
  induction arr as [| x arr IH]; intros out; simpl sort.
  - intros [= <-]. reflexivity.
  - destruct (sort compareFn arr) as [mid |]; simpl; [| discriminate].
    intros Hins. rewrite (insertSorted_same_key k x mid out Hins).
    simpl. rewrite (IH mid eq_refl). reflexivity.
Qed.

Lemma sort_sorted arr :
  StronglySorted (orderedBy key) arr -> sort compareFn arr = Some arr.
Proof.
  induction 1 as [| x arr Hs IH Hall]; simpl; [reflexivity |].
  rewrite IH. simpl. destruct arr as [| y rest]; [reflexivity |].
  simpl. rewrite compareFn_key. simpl.
  inversion Hall as [| ? ? Hxy _]; subst. unfold orderedBy in Hxy.
  destruct (Z.leb_spec (key x - key y) 0); [reflexivity | lia].
Qed.
End SortByKeyMore.

Lemma StronglySorted_constant_key {A} (l : list A) :
  StronglySorted (orderedBy (fun _ : A => 0)) l.
Proof.
  induction l as [| x l IH]; constructor; [exact IH |].
  apply Forall_forall. intros y _. unfold orderedBy. lia.
Qed.

Lemma filter_created_opp k l :
  List.filter (fun c => - Created c =? - k) l
  = List.filter (fun c => Created c =? k) l.
Proof.
  apply List.filter_ext. intros c.
  destruct (Z.eqb_spec (- Created c) (- k)), (Z.eqb_spec (Created c) k);
    (reflexivity || lia).
Qed.

Section FilterSortMore.
Variable localeCompare : string -> string -> Z.

Lemma compareContainers_defined option a b :
  Names a <> [] -> Names b <> [] ->
  is_Some (compareContainers localeCompare option a b).
Proof.
  intros Ha Hb. unfold compareContainers.
  destruct (Names a) as [| na ?]; [contradiction |].
  destruct (Names b) as [| nb ?]; [contradiction |]. simpl.
  repeat (destruct (String.eqb option _); [eexists; reflexivity |]).
  eexists; reflexivity.
Qed.

Lemma compareContainers_unknown option a b :
  option <> "name-asc" -> option <> "name-desc" ->
  option <> "created-asc" -> option <> "created-desc" ->
  compareContainers localeCompare option a b = Some (0 - 0).
Proof.
  intros H1 H2 H3 H4. unfold compareContainers.
  apply String.eqb_neq in H1, H2, H3, H4. rewrite H1, H2, H3, H4.
  reflexivity.
Qed.

(** X14: under every sort option, when each container of the filtered
    list has at least one name the effect completes and the display list
    holds the same containers as the filtered list, each as often: sorting
    neither loses nor duplicates a container. *)
Theorem sort_keeps_all_containers
    (st : ListState) (searchTerm option : string) :
  Forall (fun c => Names c <> []) (filteredList st searchTerm) ->
  exists st',
    filterSortEffect localeCompare st searchTerm option = Some st'
    /\ Permutation (filteredList st searchTerm) (displayList st').
Proof.
  intros Hnames. rewrite Forall_forall in Hnames.
  destruct (sort_defined (compareContainers localeCompare option)
              (filteredList st searchTerm)) as [out Hout].
  { intros a b Ha Hb. apply compareContainers_defined; apply Hnames; assumption. }
  destruct (displayList_filterSortEffect localeCompare st searchTerm option
              out Hout) as (st' & Heff & Hdisp).
  exists st'. split; [exact Heff |]. rewrite Hdisp.
  apply (sort_Permutation _ _ _ Hout).
Qed.

(** X15: a sort option that is none of the four known ones (the stored
    option is read back unchecked) makes the comparator answer 0 for every
    pair: the effect completes and the display list is the filtered list
    in its original order. *)
Theorem unknown_sort_option_keeps_order
    (st : ListState) (searchTerm option : string) :
  option <> "name-asc" -> option <> "name-desc" ->
  option <> "created-asc" -> option <> "created-desc" ->
  exists st',
    filterSortEffect localeCompare st searchTerm option = Some st'
    /\ displayList st' = filteredList st searchTerm.
Proof.
  intros H1 H2 H3 H4.
  apply displayList_filterSortEffect.
  apply (sort_sorted _ (fun _ => 0)).
  - intros a b. apply compareContainers_unknown; assumption.
  - apply StronglySorted_constant_key.
Qed.

(** X16: the created-time orderings are stable: containers created at
    the same second appear in the display list in the order they have in
    the filtered list. *)
Theorem created_sort_stable (st : ListState) (searchTerm : string) (k : Z) :
  (exists st',
     filterSortEffect localeCompare st searchTerm "created-asc" = Some st'
     /\ List.filter (fun c => Created c =? k) (displayList st')
        = List.filter (fun c => Created c =? k) (filteredList st searchTerm))
  /\
  (exists st',
     filterSortEffect localeCompare st searchTerm "created-desc" = Some st'
     /\ List.filter (fun c => Created c =? k) (displayList st')
        = List.filter (fun c => Created c =? k) (filteredList st searchTerm)).
Proof.
  split.
  - destruct (sort_by_key (compareContainers localeCompare "created-asc")
                (fun c => - Created c) (compare_created_asc localeCompare)
                (filteredList st searchTerm)) as (out & Hout & _).
    destruct (displayList_filterSortEffect localeCompare st searchTerm _
                out Hout) as (st' & Heff & Hdisp).
    exists st'. split; [exact Heff |]. rewrite Hdisp.
    rewrite <- !filter_created_opp.
    apply (sort_same_key _ (fun c => - Created c)
             (compare_created_asc localeCompare) (- k) _ _ Hout).
  - destruct (sort_by_key (compareContainers localeCompare "created-desc")
                Created (compare_created_desc localeCompare)
                (filteredList st searchTerm)) as (out & Hout & _).
    destruct (displayList_filterSortEffect localeCompare st searchTerm _
                out Hout) as (st' & Heff & Hdisp).
    exists st'. split; [exact Heff |]. rewrite Hdisp.
    apply (sort_same_key _ Created
             (compare_created_desc localeCompare) k _ _ Hout).
Qed.

(** X17: the created-time orderings are idempotent: sorting the display
    list once more with the same option leaves it as it is. *)
Theorem created_sort_idempotent (st : ListState) (searchTerm : string) :
  (exists st',
     filterSortEffect localeCompare st searchTerm "created-asc" = Some st'
     /\ sort (compareContainers localeCompare "created-asc") (displayList st')
        = Some (displayList st'))
  /\
  (exists st',
     filterSortEffect localeCompare st searchTerm "created-desc" = Some st'
     /\ sort (compareContainers localeCompare "created-desc") (displayList st')
        = Some (displayList st')).
Proof.
  split.
  - destruct (sort_by_key (compareContainers localeCompare "created-asc")
                (fun c => - Created c) (compare_created_asc localeCompare)
                (filteredList st searchTerm)) as (out & Hout & _ & Hs).
    destruct (displayList_filterSortEffect localeCompare st searchTerm _
                out Hout) as (st' & Heff & Hdisp).
    exists st'. split; [exact Heff |]. rewrite Hdisp.
    apply (sort_sorted _ (fun c => - Created c)
             (compare_created_asc localeCompare) _ Hs).
  - destruct (sort_by_key (compareContainers localeCompare "created-desc")
                Created (compare_created_desc localeCompare)
                (filteredList st searchTerm)) as (out & Hout & _ & Hs).
    destruct (displayList_filterSortEffect localeCompare st searchTerm _
                out Hout) as (st' & Heff & Hdisp).
    exists st'. split; [exact Heff |]. rewrite Hdisp.
    apply (sort_sorted _ Created
             (compare_created_desc localeCompare) _ Hs).
Qed.
End FilterSortMore.

Lemma sort_keeps_all_containers_witness :
  let web := mkContainer "1" ["/web"] "nginx" "running" 100 [] in
  let db := mkContainer "2" ["/db"] "postgres" "running" 200 [] in
  let st := fetchContainers (Resolved [web; db]) initialListState in
  let byCodeUnit := fun a b : string =>
    match String.compare a b with Lt => -1 | Eq => 0 | Gt => 1 end in
  Forall (fun c => Names c <> []) (filteredList st "")
  /\ exists st',
       filterSortEffect byCodeUnit st "" "name-asc" = Some st'
       /\ Permutation (filteredList st "") (displayList st').
Proof.
  intros web db st byCodeUnit.
  assert (Hl : filteredList st "" = [web; db]) by (vm_compute; reflexivity).
  assert (H : Forall (fun c => Names c <> []) (filteredList st "")).
  { rewrite Hl. repeat constructor; discriminate. }
  split; [exact H |].
  exact (sort_keeps_all_containers byCodeUnit st "" "name-asc" H).
Defined.

Lemma unknown_sort_option_keeps_order_witness :
  let web := mkContainer "1" ["/web"] "nginx" "running" 100 [] in
  let db := mkContainer "2" ["/db"] "postgres" "running" 200 [] in
  let st := fetchContainers (Resolved [web; db]) initialListState in
  exists st',
    filterSortEffect (fun _ _ => 0) st "" "newest" = Some st'
    /\ displayList st' = filteredList st "".
Proof.
  intros web db st.
  apply (unknown_sort_option_keeps_order (fun _ _ => 0) st "" "newest");
    discriminate.
Defined.

(** ** Filter step, continued *)

Lemma lowerChar_idempotent c : JS.lowerChar (JS.lowerChar c) = JS.lowerChar c.
Proof. destruct c as [[] [] [] [] [] [] [] []]; reflexivity. Qed.

Lemma isWhiteSpace_lowerChar c :
  JS.isWhiteSpace (JS.lowerChar c) = JS.isWhiteSpace c.
Proof. destruct c as [[] [] [] [] [] [] [] []]; reflexivity. Qed.

Lemma toLowerCase_idempotent s :
  JS.toLowerCase (JS.toLowerCase s) = JS.toLowerCase s.
Proof.
  induction s as [| c s IH]; simpl; [reflexivity |].
  rewrite lowerChar_idempotent, IH. reflexivity.
Qed.

Lemma allWhiteSpace_toLowerCase s :
  allWhiteSpace (JS.toLowerCase s) = allWhiteSpace s.
Proof.
  induction s as [| c s IH]; simpl; [reflexivity |].
  rewrite isWhiteSpace_lowerChar, IH. reflexivity.
Qed.

(** X18: the case of the letters typed into the search field does not
    matter: the lower-cased term selects the same containers. *)
Theorem search_ignores_case_of_term (st : ListState) (term : string) :
  filteredList st (JS.toLowerCase term) = filteredList st term.
Proof.
  rewrite !filteredList_cases, allWhiteSpace_toLowerCase.
  destruct (allWhiteSpace term); [reflexivity |].
  apply List.filter_ext. intros c. unfold matchesSearch.
  rewrite toLowerCase_idempotent. reflexivity.
Qed.

Lemma append_empty_r (s : string) : (s ++ "")%string = s.
Proof.
  induction s as [| c s IH]; [reflexivity | exact (f_equal (String c) IH)].
Qed.

(** X19: typing one of a container's names, in any mix of upper and
    lower case, always keeps that container in the filtered list. *)
Theorem search_by_name_finds_container
    (st : ListState) (term name : string) (c : DockerContainer) :
  c ∈ rawList st -> name ∈ Names c ->
  JS.toLowerCase term = JS.toLowerCase name ->
  c ∈ filteredList st term.
Proof.
  intros Hc Hname Hcase. rewrite filteredList_cases.
  destruct (allWhiteSpace term); [exact Hc |].
  apply list_elem_of_In, filter_In. split; [apply list_elem_of_In, Hc |].
  apply matchesSearch_iff. exists name. split; [exact Hname |].
  exists "", name, "". split; [| symmetry; exact Hcase].
  rewrite append_empty_r. reflexivity.
Qed.

Lemma search_by_name_finds_container_witness :
  let web := mkContainer "1" ["/Web-Server"] "nginx" "running" 100 [] in
  let db := mkContainer "2" ["/db"] "postgres" "running" 200 [] in
  let st := fetchContainers (Resolved [db; web]) initialListState in
  web ∈ rawList st /\ "/Web-Server" ∈ Names web
  /\ JS.toLowerCase "/WEB-server" = JS.toLowerCase "/Web-Server"
  /\ web ∈ filteredList st "/WEB-server".
Proof.
  intros web db st.
  assert (H1 : web ∈ rawList st).
  { replace (rawList st) with [db; web] by (vm_compute; reflexivity).
    right; left. }
  assert (H2 : "/Web-Server" ∈ Names web) by left.
  assert (H3 : JS.toLowerCase "/WEB-server" = JS.toLowerCase "/Web-Server")
    by reflexivity.
  split; [exact H1 |]. split; [exact H2 |]. split; [exact H3 |].
  exact (search_by_name_finds_container st _ _ web H1 H2 H3).
Defined.

(** ** The effect and the raw list *)

Lemma filterSortEffect_raw_Permutation localeCompare st term option st' :
  is_Some (heap st !! containers st) ->
  filterSortEffect localeCompare st term option = Some st' ->
  Permutation (rawList st) (rawList st').
Proof.
  intros Hdom Heff.
  destruct (String.eqb_spec (JS.trim term) "") as [Hblank | Hterm].
  - unfold filterSortEffect, filterStep in Heff. rewrite Hblank in Heff.
    simpl in Heff.
    destruct (sort _ _) as [sorted |] eqn:Hsort; [| discriminate].
    simpl in Heff. injection Heff as <-.
    unfold rawList at 2. unfold deref. simpl.
    rewrite lookup_total_insert_eq.
    apply (sort_Permutation _ _ _ Hsort).
  - rewrite (filterSortEffect_filtering_keeps_raw _ _ _ _ _ Hterm Hdom Heff).
    reflexivity.
Qed.

(** X20: the filter/sort effect never changes the next available port:
    even when it sorts the raw array in place, the port calculator gives
    the same answer on the raw list before and after. *)
Theorem effect_keeps_next_available_port
    (localeCompare : string -> string -> Z)
    (st st' : ListState) (term option : string) (a b : Z) :
  is_Some (heap st !! containers st) ->
  filterSortEffect localeCompare st term option = Some st' ->
  nextAvailablePort (rawList st') a b = nextAvailablePort (rawList st) a b.
Proof.
  intros Hdom Heff. apply nextAvailablePort_same_members. intros c.
  pose proof (filterSortEffect_raw_Permutation _ _ _ _ _ Hdom Heff) as Hperm.
  split; intros Hc; [rewrite Hperm | rewrite <- Hperm]; exact Hc.
Qed.

Lemma effect_keeps_next_available_port_witness :
  let older := mkContainer "1" ["/a"] "nginx" "running" 100
                 [mkPort 80 (Some 8080) "tcp"] in
  let newer := mkContainer "2" ["/b"] "nginx" "running" 200
                 [mkPort 80 (Some 8081) "tcp"] in
  let st := fetchContainers (Resolved [older; newer]) initialListState in
  is_Some (heap st !! containers st)
  /\ exists st',
       filterSortEffect (fun _ _ => 0) st "" "created-asc" = Some st'
       /\ rawList st' = [newer; older]
       /\ nextAvailablePort (rawList st') 8080 8090
          = nextAvailablePort (rawList st) 8080 8090.
Proof.
  intros older newer st.
  assert (Hdom : is_Some (heap st !! containers st))
    by (eexists; vm_compute; reflexivity).
  split; [exact Hdom |].
  destruct (filterSortEffect (fun _ _ => 0) st "" "created-asc")
    as [st' |] eqn:Heff; [| vm_compute in Heff; discriminate].
  exists st'. split; [reflexivity |]. split.
  - vm_compute in Heff. injection Heff as <-. vm_compute. reflexivity.
  - exact (effect_keeps_next_available_port _ st st' "" "created-asc"
             8080 8090 Hdom Heff).
Defined.

(** X21: when a search term with a character other than white space is
    applied, the effect sorts a new array and the raw container list is
    left exactly as it was. *)
Theorem effect_keeps_raw_list_when_filtering
    (localeCompare : string -> string -> Z)
    (st st' : ListState) (term option : string) :
  JS.trim term <> "" ->
  is_Some (heap st !! containers st) ->
  filterSortEffect localeCompare st term option = Some st' ->
  rawList st' = rawList st /\ containers st' <> filteredContainers st'.
Proof.
  intros Hterm Hdom Heff.
  split; [exact (filterSortEffect_filtering_keeps_raw _ _ _ _ _ Hterm Hdom Heff) |].
  unfold filterSortEffect, filterStep in Heff.
  destruct (String.eqb_spec (JS.trim term) "") as [? | _]; [contradiction |].
  simpl in Heff. destruct (sort _ _) as [sorted |]; [| discriminate].
  injection Heff as <-. simpl. intros Heq.
  apply elem_of_dom in Hdom. rewrite Heq in Hdom.
  by apply is_fresh in Hdom.
Qed.

Lemma effect_keeps_raw_list_when_filtering_witness :
  let older := mkContainer "1" ["/a"] "nginx" "running" 100 [] in
  let newer := mkContainer "2" ["/b"] "nginx" "running" 200 [] in
  let st := fetchContainers (Resolved [older; newer]) initialListState in
  JS.trim "/" <> ""
  /\ is_Some (heap st !! containers st)
  /\ exists st',
       filterSortEffect (fun _ _ => 0) st "/" "created-asc" = Some st'
       /\ displayList st' = [newer; older]
       /\ rawList st' = rawList st.
Proof.
  intros older newer st.
  assert (Hterm : JS.trim "/" <> "") by discriminate.
  assert (Hdom : is_Some (heap st !! containers st))
    by (eexists; vm_compute; reflexivity).
  split; [exact Hterm |]. split; [exact Hdom |].
  destruct (filterSortEffect (fun _ _ => 0) st "/" "created-asc")
    as [st' |] eqn:Heff; [| vm_compute in Heff; discriminate].
  exists st'. split; [reflexivity |]. split.
  - vm_compute in Heff. injection Heff as <-. vm_compute. reflexivity.
  - exact (proj1 (effect_keeps_raw_list_when_filtering _ st st' "/"
                    "created-asc" Hterm Hdom Heff)).
Defined.

(** ** Data fetcher, continued *)

(** X22: a resolved fetch puts the payload into a new array that both
    the raw and the display cell then refer to, and changes no array that
    existed before; a later in-place sort of either cell therefore shows
    through the other. *)
Theorem fetch_resolved_shares_payload
    (st : ListState) (data : list DockerContainer) :
  containers (fetchContainers (Resolved data) st)
  = filteredContainers (fetchContainers (Resolved data) st)
  /\ displayList (fetchContainers (Resolved data) st) = data
  /\ heap st !! containers (fetchContainers (Resolved data) st) = None
  /\ forall r, is_Some (heap st !! r) ->
       heap (fetchContainers (Resolved data) st) !! r = heap st !! r.
Proof.
  unfold fetchContainers, setBothLists, alloc, displayList, deref. simpl.
  split; [reflexivity |]. split; [apply lookup_total_insert_eq |].
  assert (Hfresh : heap st !! fresh (dom (heap st)) = None)
    by (apply not_elem_of_dom, is_fresh).
  split; [exact Hfresh |].
  intros r [arr Hr]. apply lookup_insert_ne. intros Heq.
  rewrite Heq in Hfresh. congruence.
Qed.

(** ** Port list of one container, continued *)

Lemma displayedPorts_keepFirst ports :
  displayedPorts ports = keepFirst [] ports.
Proof.
  unfold displayedPorts, JS.filterIndexed.
  apply (filterFrom_keepFirst ports [] []). intros k. reflexivity.
Qed.

Lemma keepFirst_distinct ports : forall seen,
  NoDup (portPair <$> ports) ->
  (forall p, p ∈ ports -> portPair p ∉ seen) ->
  keepFirst seen ports = ports.
Proof.
  induction ports as [| p ports IH]; intros seen Hnd Hseen; simpl.
  - reflexivity.
  - rewrite fmap_cons in Hnd. apply NoDup_cons in Hnd as [Hp Hnd].
    destruct (bool_decide_reflect (portPair p ∈ seen)) as [Hin | _].
    + exfalso. apply (Hseen p); [left | exact Hin].
    + f_equal. apply IH; [exact Hnd |].
      intros q Hq Hin. apply elem_of_cons in Hin as [Heq | Hin].
      * apply Hp. rewrite <- Heq. apply list_elem_of_fmap_2, Hq.
      * apply (Hseen q); [by right | exact Hin].
Qed.

(** X23: removing duplicate bindings is idempotent, and a port list in
    which no (public port, private port) pair repeats is displayed
    unchanged. *)
Theorem displayedPorts_idempotent (ports : list Port) :
  displayedPorts (displayedPorts ports) = displayedPorts ports
  /\ (NoDup (portPair <$> ports) -> displayedPorts ports = ports).
Proof.
  assert (Hid : forall l, NoDup (portPair <$> l) -> displayedPorts l = l).
  { intros l Hnd. rewrite displayedPorts_keepFirst.
    apply keepFirst_distinct; [exact Hnd |].
    intros p _ Hin. inversion Hin. }
  split; [| apply Hid]. apply Hid.
  rewrite displayedPorts_keepFirst. apply keepFirst_NoDup.
Qed.

(** ** Links *)

Lemma append_cancel_l (a b c : string) :
  (a ++ b)%string = (a ++ c)%string -> b = c.
Proof.
  induction a as [| x a IH]; simpl; [auto |].
  intros [= H]. apply IH, H.
Qed.

(** X24: for one hostname, two ports have the same link only when they
    are the same port, and no link is the empty string. *)
Theorem generateLink_distinguishes_ports (h : string) (p q : Z) :
  (generateLink h p = generateLink h q <-> p = q)
  /\ generateLink h p <> "".
Proof.
  split; [| apply generateLink_truthy].
  split; [| intros ->; reflexivity].
  unfold generateLink. intros Heq.
  apply (append_cancel_l "http://") in Heq.
  apply append_cancel_l in Heq.
  apply (append_cancel_l ":") in Heq.
  apply (inj pretty) in Heq. exact Heq.
Qed.

(** ** The port list and the calculator together *)

(** X25: the port offered as next available is never the public port of
    a binding shown in a container's port list. *)
Theorem next_available_port_not_displayed
    (cs : list DockerContainer) (a b q : Z)
    (c : DockerContainer) (port : Port) :
  c ∈ cs -> port ∈ displayedPorts (Ports c) -> PublicPort port = Some q ->
  nextAvailablePort cs a b <> Some q.
Proof.
  intros Hc Hport Hpub Hnext.
  pose proof (nextAvailablePort_used cs a b) as Hspec.
  rewrite Hnext in Hspec. destruct Hspec as (Hrange & Hfree & _).
  apply Hfree. split; [exact Hrange |]. exists c, port.
  split; [exact Hc |]. split; [| exact Hpub].
  rewrite displayedPorts_keepFirst in Hport.
  eapply elem_of_sublist; [exact Hport | apply keepFirst_sublist].
Qed.

Lemma next_available_port_not_displayed_witness :
  let shown := mkPort 80 (Some 8080) "tcp" in
  let web := mkContainer "1" ["/web"] "nginx" "running" 100
               [shown; mkPort 80 (Some 8080) "udp"] in
  web ∈ [web] /\ shown ∈ displayedPorts (Ports web)
  /\ PublicPort shown = Some 8080
  /\ nextAvailablePort [web] 8080 8090 <> Some 8080.
Proof.
  intros shown web.
  assert (H1 : web ∈ [web]) by left.
  assert (H2 : shown ∈ displayedPorts (Ports web)).
  { replace (displayedPorts (Ports web)) with [shown]
      by (vm_compute; reflexivity).
    left. }
  assert (H3 : PublicPort shown = Some 8080) by reflexivity.
  split; [exact H1 |]. split; [exact H2 |]. split; [exact H3 |].
  exact (next_available_port_not_displayed [web] 8080 8090 8080 web shown
           H1 H2 H3).
Defined.

(** ** Stored ports and decimal numerals *)

Lemma digitValue_decimalDigit c : JS.digitValue c = decimalDigit c.
Proof. destruct c as [[] [] [] [] [] [] [] []]; reflexivity. Qed.

Lemma isWhiteSpace_blankChars c :
  JS.isWhiteSpace c = bool_decide (c ∈ blankChars).
Proof. destruct c as [[] [] [] [] [] [] [] []]; vm_compute; reflexivity. Qed.

Lemma decimalDigit_range c d : decimalDigit c = Some d -> 0 <= d <= 9.
Proof.
  unfold decimalDigit.
  repeat (destruct (Ascii.eqb c _); [intros [= <-]; lia |]).
  discriminate.
Qed.

Lemma decimalDigit_plain c d :
  decimalDigit c = Some d ->
  JS.isWhiteSpace c = false /\ c <> "-"%char /\ c <> "+"%char.
Proof.
  intros H. destruct c as [[] [] [] [] [] [] [] []];
    vm_compute in H; try discriminate H;
    (split; [reflexivity | split; discriminate]).
Qed.

Lemma parseInt_unsigned c r :
  JS.isWhiteSpace c = false -> c <> "-"%char -> c <> "+"%char ->
  JS.parseInt (String c r)
  = match JS.parseDigits (String c r) None with
    | Some n => Some (1 * n)
    | None => None
    end.
Proof.
  intros Hws Hminus Hplus.
  destruct c as [[] [] [] [] [] [] [] []];
    try (vm_compute in Hws; discriminate Hws);
    try (exfalso; apply Hminus; reflexivity);
    try (exfalso; apply Hplus; reflexivity);
    reflexivity.
Qed.

Lemma parseInt_plus r :
  JS.parseInt (String "+" r)
  = match JS.parseDigits r None with
    | Some n => Some (1 * n)
    | None => None
    end.
Proof. reflexivity. Qed.

Lemma trimStart_blanks blanks t :
  allBlank blanks -> JS.trimStart (blanks ++ t) = JS.trimStart t.
Proof.
  induction blanks as [| c blanks IH]; intros Hb; [reflexivity |].
  destruct Hb as [Hc Hb].
  change (JS.trimStart (String c (blanks ++ t)) = JS.trimStart t).
  simpl. rewrite isWhiteSpace_blankChars, bool_decide_eq_true_2 by exact Hc.
  apply IH, Hb.
Qed.

Lemma parseInt_blanks blanks t :
  allBlank blanks -> JS.parseInt (blanks ++ t) = JS.parseInt t.
Proof.
  intros Hb. unfold JS.parseInt. rewrite trimStart_blanks by exact Hb.
  reflexivity.
Qed.

Lemma trimStart_split s :
  exists blanks,
    s = (blanks ++ JS.trimStart s)%string /\ allBlank blanks
    /\ match JS.trimStart s with
       | EmptyString => True
       | String c _ => JS.isWhiteSpace c = false
       end.
Proof.
  induction s as [| c s (blanks & Hs & Hb & Hhead)]; simpl.
  - exists "". repeat split.
  - destruct (JS.isWhiteSpace c) eqn:Hc.
    + exists (String c blanks). split; [| split].
      * change (String c s = String c (blanks ++ JS.trimStart s)).
        f_equal. exact Hs.
      * split; [| exact Hb].
        rewrite isWhiteSpace_blankChars in Hc.
        apply bool_decide_eq_true in Hc. exact Hc.
      * exact Hhead.
    + exists "". repeat split. exact Hc.
Qed.

Lemma parseDigits_no_digit rest acc :
  ~ startsWithDigit rest -> JS.parseDigits rest acc = acc.
Proof.
  destruct rest as [| c rest]; simpl; [reflexivity |].
  rewrite digitValue_decimalDigit. intros Hno.
  destruct (decimalDigit c) as [d |]; [| reflexivity].
  exfalso. apply Hno. eexists; reflexivity.
Qed.

Lemma parseDigits_numeral digits rest : forall a v,
  numeralValue digits = Some v -> ~ startsWithDigit rest ->
  JS.parseDigits (digits ++ rest) (Some a)
  = Some (a * 10 ^ Z.of_nat (String.length digits) + v).
Proof.
  induction digits as [| c ds IH]; intros a v Hv Hrest.
  - injection Hv as <-. change (JS.parseDigits rest (Some a) = Some (a * 1 + 0)).
    rewrite parseDigits_no_digit by exact Hrest. f_equal. lia.
  - simpl in Hv.
    destruct (decimalDigit c) as [d |] eqn:Hd; [| discriminate].
    destruct (numeralValue ds) as [v' |] eqn:Hds; [| discriminate].
    injection Hv as <-.
    change (JS.parseDigits (String c (ds ++ rest)) (Some a)
            = Some (a * 10 ^ Z.of_nat (S (String.length ds))
                    + (d * 10 ^ Z.of_nat (String.length ds) + v'))).
    simpl JS.parseDigits. rewrite digitValue_decimalDigit, Hd. simpl default.
    rewrite (IH _ v' eq_refl Hrest). f_equal.
    rewrite Nat2Z.inj_succ, Z.pow_succ_r by lia. ring.
Qed.

Lemma parseDigits_numeral_start digits rest v :
  digits <> "" -> numeralValue digits = Some v -> ~ startsWithDigit rest ->
  JS.parseDigits (digits ++ rest) None = Some v.
Proof.
  intros Hne Hv Hrest. destruct digits as [| c ds]; [contradiction |].
  simpl in Hv.
  destruct (decimalDigit c) as [d |] eqn:Hd; [| discriminate].
  destruct (numeralValue ds) as [v' |] eqn:Hds; [| discriminate].
  injection Hv as <-.
  change (JS.parseDigits (String c (ds ++ rest)) None
          = Some (d * 10 ^ Z.of_nat (String.length ds) + v')).
  simpl JS.parseDigits. rewrite digitValue_decimalDigit, Hd. simpl default.
  rewrite (parseDigits_numeral ds rest _ v' Hds Hrest). f_equal; ring.
Qed.

Lemma digits_split t :
  exists digits rest n,
    t = (digits ++ rest)%string /\ ~ startsWithDigit rest
    /\ numeralValue digits = Some n /\ 0 <= n.
Proof.
  induction t as [| c t (ds & rest & n & Ht & Hrest & Hn & Hpos)].
  - exists "", "", 0. repeat split; [intros [] | lia].
  - destruct (decimalDigit c) as [d |] eqn:Hd.
    + exists (String c ds), rest, (d * 10 ^ Z.of_nat (String.length ds) + n).
      split; [| split; [exact Hrest | split]].
      * change (String c t = String c (ds ++ rest)). f_equal. exact Ht.
      * simpl. rewrite Hd, Hn. reflexivity.
      * apply decimalDigit_range in Hd.
        assert (0 <= 10 ^ Z.of_nat (String.length ds))
          by (apply Z.pow_nonneg; lia).
        nia.
    + exists "", (String c t), 0. repeat split; [| lia].
      simpl. rewrite Hd. intros [? ?]. discriminate.
Qed.

Lemma parseDigits_start_split t v :
  JS.parseDigits t None = Some v ->
  exists digits rest,
    t = (digits ++ rest)%string /\ digits <> ""
    /\ numeralValue digits = Some v /\ ~ startsWithDigit rest /\ 0 <= v.
Proof.
  intros Hparse.
  destruct (digits_split t) as (digits & rest & n & Ht & Hrest & Hn & Hpos).
  destruct digits as [| c ds].
  - rewrite Ht in Hparse. change (JS.parseDigits rest None = Some v) in Hparse.
    rewrite parseDigits_no_digit in Hparse by exact Hrest. discriminate.
  - assert (Hne : String c ds <> "") by discriminate.
    rewrite Ht, (parseDigits_numeral_start _ _ n Hne Hn Hrest) in Hparse.
    injection Hparse as <-. exists (String c ds), rest. auto.
Qed.

Lemma readsAsPort_parsesAsPort stored v :
  readsAsPort stored v <-> parsesAsPort stored v.
Proof.
  split.
  - intros (blanks & plus & digits & rest & -> & Hb & Hplus & Hne & Hv
            & Hrest & Hrange).
    eexists. split; [reflexivity |]. split; [| exact Hrange].
    rewrite parseInt_blanks by exact Hb.
    pose proof (parseDigits_numeral_start digits rest v Hne Hv Hrest) as Hd.
    destruct Hplus as [-> | ->].
    + destruct digits as [| c ds]; [contradiction |].
      change (JS.parseInt (String c (ds ++ rest)) = Some v).
      change (JS.parseDigits (String c (ds ++ rest)) None = Some v) in Hd.
      simpl in Hv. destruct (decimalDigit c) as [d |] eqn:Hc; [| discriminate].
      destruct (decimalDigit_plain c d Hc) as (Hws & Hminus & Hplus).
      rewrite parseInt_unsigned, Hd by assumption. f_equal. lia.
    + change (JS.parseInt (String "+" (digits ++ rest)) = Some v).
      rewrite parseInt_plus, Hd. f_equal. lia.
  - intros (s & -> & Hparse & Hrange).
    destruct (trimStart_split s) as (blanks & Hs & Hb & Hhead).
    rewrite Hs, parseInt_blanks in Hparse by exact Hb.
    destruct (JS.trimStart s) as [| c r] eqn:Ht; [discriminate |].
    destruct (ascii_dec c "-") as [-> | Hminus].
    { rewrite parseInt_minus in Hparse.
      destruct (JS.parseDigits r None) as [n |] eqn:Hn; [| discriminate].
      apply parseDigits_start_split in Hn as (_ & _ & _ & _ & _ & _ & Hpos).
      injection Hparse as <-. lia. }
    destruct (ascii_dec c "+") as [-> | Hplus].
    { rewrite parseInt_plus in Hparse.
      destruct (JS.parseDigits r None) as [n |] eqn:Hn; [| discriminate].
      apply parseDigits_start_split in Hn
        as (digits & rest & -> & Hne & Hv & Hrest & _).
      injection Hparse as Hvn.
      exists blanks, "+", digits, rest. rewrite Hs.
      replace v with n by lia. repeat split; auto; lia. }
    rewrite parseInt_unsigned in Hparse by assumption.
    destruct (JS.parseDigits (String c r) None) as [n |] eqn:Hn;
      [| discriminate].
    apply parseDigits_start_split in Hn
      as (digits & rest & Hcr & Hne & Hv & Hrest & _).
    injection Hparse as Hvn.
    exists blanks, "", digits, rest. rewrite Hs, Hcr.
    replace v with n by lia. repeat split; auto; lia.
Qed.

(** C8 as amended: a numeric slot loads as the integer [v] when the
    stored string is, after any leading white space and an optional plus
    sign, a run of decimal digits that denotes [v] in [[1, 65535]] and is
    followed by the end of the string or by a character that is not a
    digit (what follows is ignored); in every other case it loads as the
    default, 1024 for the min port and 49151 for the max port.  There is
    no error outcome, the loaded value always lies in [[1, 65535]], and a
    stored "abc" for the min port loads as 1024. *)
Theorem stored_port_reads_leading_numeral (ls : gmap string string) :
  (forall v, readsAsPort (ls !! MIN_PORT_STORAGE_KEY) v ->
             initialMinPort ls = v) /\
  ((forall v, ~ readsAsPort (ls !! MIN_PORT_STORAGE_KEY) v) ->
   initialMinPort ls = 1024) /\
  (forall v, readsAsPort (ls !! MAX_PORT_STORAGE_KEY) v ->
             initialMaxPort ls = v) /\
  ((forall v, ~ readsAsPort (ls !! MAX_PORT_STORAGE_KEY) v) ->
   initialMaxPort ls = 49151) /\
  1 <= initialMinPort ls <= 65535 /\
  1 <= initialMaxPort ls <= 65535 /\
  initialMinPort (<[MIN_PORT_STORAGE_KEY := "abc"]> ls) = 1024.
Proof.
  unfold initialMinPort, initialMaxPort.
  split; [| split; [| split; [| split; [| split; [| split]]]]].
  - intros v Hv. apply getStoredPortOrDefault_parsed.
    apply readsAsPort_parsesAsPort, Hv.
  - intros Hno. apply getStoredPortOrDefault_default.
    intros v Hv. apply (Hno v), readsAsPort_parsesAsPort, Hv.
  - intros v Hv. apply getStoredPortOrDefault_parsed.
    apply readsAsPort_parsesAsPort, Hv.
  - intros Hno. apply getStoredPortOrDefault_default.
    intros v Hv. apply (Hno v), readsAsPort_parsesAsPort, Hv.
  - apply getStoredPortOrDefault_range. lia.
  - apply getStoredPortOrDefault_range. lia.
  - unfold getStoredPortOrDefault. rewrite lookup_insert_eq. reflexivity.
Qed.

(** C8, counterexample to the statement that only a stored integer is
    loaded: "8080px" is not an integer numeral, yet it loads as 8080 and
    not as the default 1024. *)
Lemma stored_port_with_trailing_text_loads :
  (forall v, ~ denotesInteger "8080px" v)
  /\ initialMinPort {[ MIN_PORT_STORAGE_KEY := "8080px" ]} = 8080
  /\ initialMinPort {[ MIN_PORT_STORAGE_KEY := "8080px" ]} <> 1024.
Proof.
  split; [| split].
  - intros v (sign & digits & n & Hs & _ & Hn & [[-> _] | [[-> _] | [-> _]]]).
    + change ("8080px" = digits) in Hs. subst digits.
      vm_compute in Hn. discriminate Hn.
    + discriminate Hs.
    + discriminate Hs.
  - vm_compute. reflexivity.
  - vm_compute. discriminate.
Qed.

(** ** Data fetcher *)

Lemma fetchContainersAny_widen (st : ListState) :
  (forall data,
     fetchContainersAny (AxiosResolved (ContainerArray data)) (widen st)
     = widen (fetchContainers (Resolved data) st))
  /\ fetchContainersAny AxiosRejected (widen st)
     = widen (fetchContainers Rejected st).
Proof. split; [intros data |]; reflexivity. Qed.

(** C7 as amended: a fetch whose request resolves puts the response
    body into both list cells as it is, a container array or not, and
    leaves the error cleared; a fetch whose request is rejected leaves
    the container list as it was (empty before any successful fetch) and
    sets the error message.  The loading flag ends cleared either way.
    On array bodies and on rejection this is [fetchContainers]. *)
Theorem fetchContainersAny_outcomes (st : FetchState) :
  (forall data,
     cellContent (fetchHeap (fetchContainersAny (AxiosResolved data) st))
       (containersCell (fetchContainersAny (AxiosResolved data) st)) = data
     /\ cellContent (fetchHeap (fetchContainersAny (AxiosResolved data) st))
          (filteredContainersCell (fetchContainersAny (AxiosResolved data) st))
        = data
     /\ errorCell (fetchContainersAny (AxiosResolved data) st) = None
     /\ loadingCell (fetchContainersAny (AxiosResolved data) st) = false)
  /\ (containersCell (fetchContainersAny AxiosRejected st) = containersCell st
      /\ fetchHeap (fetchContainersAny AxiosRejected st) = fetchHeap st
      /\ errorCell (fetchContainersAny AxiosRejected st) = Some FETCH_ERROR
      /\ FETCH_ERROR <> ""
      /\ loadingCell (fetchContainersAny AxiosRejected st) = false)
  /\ cellContent
       (fetchHeap (fetchContainersAny AxiosRejected (widen initialListState)))
       (containersCell
          (fetchContainersAny AxiosRejected (widen initialListState)))
     = ContainerArray []
  /\ (forall lst data,
        fetchContainersAny (AxiosResolved (ContainerArray data)) (widen lst)
        = widen (fetchContainers (Resolved data) lst))
  /\ (forall lst,
        fetchContainersAny AxiosRejected (widen lst)
        = widen (fetchContainers Rejected lst)).
Proof.
  split; [| split; [| split; [| split]]].
  - intros [data | text]; simpl.
    + unfold deref. rewrite lookup_total_insert_eq. auto.
    + auto.
  - simpl. repeat split. discriminate.
  - reflexivity.
  - intros lst data. apply fetchContainersAny_widen.
  - intros lst. apply fetchContainersAny_widen.
Qed.

(** C7, counterexample to the statement that a malformed payload keeps
    the previous list and sets the error: after a good fetch, a request
    that resolves with a body that is not JSON replaces the list by the
    body text and leaves the error cleared. *)
Lemma fetch_malformed_body_replaces_list :
  let web := mkContainer "1" ["/web"] "nginx" "running" 100 [] in
  let st := widen (fetchContainers (Resolved [web]) initialListState) in
  let st' :=
    fetchContainersAny (AxiosResolved (BodyText "<html>Bad Gateway</html>"))
      st in
  cellContent (fetchHeap st) (containersCell st) = ContainerArray [web]
  /\ containersCell st' = NotArray "<html>Bad Gateway</html>"
  /\ errorCell st' = None
  /\ ~ (cellContent (fetchHeap st') (containersCell st')
        = cellContent (fetchHeap st) (containersCell st)
        /\ errorCell st' = Some FETCH_ERROR).
Proof.
  intros web st st'. split; [vm_compute; reflexivity |].
  split; [reflexivity |]. split; [reflexivity |].
  intros [_ Herr]. discriminate Herr.
Qed.
